(** * rororun-api: token lifecycle and winability scoring

    A shallow embedding of the scoring helpers, the time formatters, the
    time-string parser and the access-token routine of the segment score
    routes, with the properties stated for them.

    Number model.  A JavaScript [number] is embedded as an exact rational
    extended with the three non-finite values [NaN], [-Infinity] and
    [+Infinity].  Finite arithmetic is exact: the binary64 rounding of each
    operation, overflow to an infinity and the sign of zero are not
    represented.  Everything else ([NaN] propagation, comparisons that
    involve [NaN], [Math.min]/[Math.max]/[Math.round]) follows ECMAScript.
    The laws of the scoring engine are proved in this arithmetic; module
    [Binary64] runs the engine once more on IEEE 754 doubles, at the inputs
    the statements quote and over a grid, where both agree.

    The definitions come first, in the order of the source: numbers and
    the scoring engine, strings with the formatters and the parser, the
    access-token routine.  The properties follow. *)

From Stdlib Require Import QArith Qround Lqa ZArith Lia String Ascii List Bool.
From Stdlib Require Import DecimalString DecimalPos SpecFloat Qabs.
Import ListNotations.

(** ** JavaScript numbers *)

Inductive number : Type :=
| NaN
| NegInf
| Fin (q : Q)
| PosInf.

Declare Scope js_scope.
Delimit Scope js_scope with js.
Bind Scope js_scope with number.

Definition int (z : Z) : number := Fin (inject_Z z).

(** Sign of a finite value, as [Lt], [Eq] or [Gt]. *)
Definition Qsign (q : Q) : comparison := (q ?= 0)%Q.

Definition Number_isFinite (x : number) : bool :=
  match x with Fin _ => true | _ => false end.

Definition Number_isNaN (x : number) : bool :=
  match x with NaN => true | _ => false end.

Definition neg (x : number) : number :=
  match x with
  | NaN => NaN
  | NegInf => PosInf
  | Fin q => Fin (- q)
  | PosInf => NegInf
  end.

Definition add (x y : number) : number :=
  match x, y with
  | NaN, _ | _, NaN => NaN
  | PosInf, NegInf | NegInf, PosInf => NaN
  | PosInf, _ | _, PosInf => PosInf
  | NegInf, _ | _, NegInf => NegInf
  | Fin a, Fin b => Fin (a + b)
  end.

Definition sub (x y : number) : number := add x (neg y).

(** An infinity of the sign [s] times the sign of an infinity. *)
Definition signed_inf (s : comparison) (positive : bool) : number :=
  match s with
  | Eq => NaN
  | Gt => if positive then PosInf else NegInf
  | Lt => if positive then NegInf else PosInf
  end.

Definition mul (x y : number) : number :=
  match x, y with
  | NaN, _ | _, NaN => NaN
  | PosInf, PosInf | NegInf, NegInf => PosInf
  | PosInf, NegInf | NegInf, PosInf => NegInf
  | PosInf, Fin b => signed_inf (Qsign b) true
  | NegInf, Fin b => signed_inf (Qsign b) false
  | Fin a, PosInf => signed_inf (Qsign a) true
  | Fin a, NegInf => signed_inf (Qsign a) false
  | Fin a, Fin b => Fin (a * b)
  end.

(** Division.  A zero divisor is taken to be [+0]. *)
Definition div (x y : number) : number :=
  match x, y with
  | NaN, _ | _, NaN => NaN
  | (PosInf | NegInf), (PosInf | NegInf) => NaN
  | PosInf, Fin b =>
      match Qsign b with Lt => NegInf | _ => PosInf end
  | NegInf, Fin b =>
      match Qsign b with Lt => PosInf | _ => NegInf end
  | Fin _, (PosInf | NegInf) => Fin 0
  | Fin a, Fin b =>
      match Qsign b with
      | Eq => signed_inf (Qsign a) true
      | _ => Fin (a / b)
      end
  end.

(** [x <= y]; false as soon as one side is [NaN]. *)
Definition le (x y : number) : bool :=
  match x, y with
  | NaN, _ | _, NaN => false
  | NegInf, _ => true
  | _, PosInf => true
  | Fin a, Fin b => Qle_bool a b
  | _, _ => false
  end.

(** [x < y]; false as soon as one side is [NaN]. *)
Definition lt (x y : number) : bool :=
  match x, y with
  | NaN, _ | _, NaN => false
  | _, _ => negb (le y x)
  end.

Definition ge (x y : number) : bool := le y x.
Definition gt (x y : number) : bool := lt y x.

(** Strict equality [===] on numbers. *)
Definition eqn (x y : number) : bool :=
  match x, y with
  | NegInf, NegInf | PosInf, PosInf => true
  | Fin a, Fin b => Qeq_bool a b
  | _, _ => false
  end.

Infix "+" := add : js_scope.
Infix "-" := sub : js_scope.
Infix "*" := mul : js_scope.
Infix "/" := div : js_scope.
Infix "<=?" := le : js_scope.
Infix "<?" := lt : js_scope.
Infix ">=?" := ge (at level 70) : js_scope.
Infix "===" := eqn (at level 70) : js_scope.

Definition Math_min (x y : number) : number :=
  match x, y with
  | NaN, _ | _, NaN => NaN
  | _, _ => if le x y then x else y
  end.

Definition Math_max (x y : number) : number :=
  match x, y with
  | NaN, _ | _, NaN => NaN
  | _, _ => if le x y then y else x
  end.

(** Nearest integer, a tie going towards [+Infinity]. *)
Definition round_half_up (q : Q) : Z := Qfloor (q + (1 # 2)).

Definition Math_round (x : number) : number :=
  match x with
  | Fin q => int (round_half_up q)
  | _ => x
  end.

Definition Math_floor (x : number) : number :=
  match x with
  | Fin q => int (Qfloor q)
  | _ => x
  end.

(** An integer in the closed range [lo..hi]. *)
Definition is_integer_in (lo hi : Z) (x : number) : Prop :=
  exists z : Z, x = int z /\ (lo <= z <= hi)%Z.

(** ** The weighted scoring engine *)

(** [function clamp(n, min = 0, max = 100)] *)
Definition clamp (n : number) (min max : number) : number :=
  Math_max min (Math_min max n).

(** The call [clamp(n)] with both defaults. *)
Definition clamp_default (n : number) : number := clamp n (int 0) (int 100).

Inductive Color : Type := green | orange | red.

Record Params : Type := {
  gapSec : number;
  distanceM : number;
  elevationGainM : number
}.

Record Breakdown : Type := {
  gapScore : number;
  difficultyScore : number;
  sprintBonus : number
}.

Record Winability : Type := {
  winability : number;
  color : Color;
  breakdown : Breakdown
}.

(** The local constants of [computeWinability], each as a function of the
    parameter object. *)
Module Body.

Definition gapScore (params : Params) : number :=
  clamp_default (int 100 - (gapSec params / int 60) * int 100)%js.

Definition distPenalty (params : Params) : number :=
  clamp (distanceM params / int 5000 * int 60)%js (int 0) (int 60).

Definition elevPenalty (params : Params) : number :=
  clamp (elevationGainM params / int 200 * int 40)%js (int 0) (int 40).

Definition difficultyScore (params : Params) : number :=
  clamp_default (int 100 - (distPenalty params + elevPenalty params))%js.

Definition sprintBonus (params : Params) : number :=
  if (distanceM params <=? int 600)%js then int 10
  else if (distanceM params <=? int 1200)%js then int 5
  else int 0.

Definition winability (params : Params) : number :=
  clamp_default (gapScore params * Fin (65 # 100)
                 + difficultyScore params * Fin (25 # 100)
                 + sprintBonus params * Fin (1 # 10))%js.

Definition color (params : Params) : Color :=
  if (winability params >=? int 70)%js then green
  else if (winability params >=? int 40)%js then orange
  else red.

End Body.

Definition computeWinability (params : Params) : Winability :=
  let gapScore := Body.gapScore params in
  let difficultyScore := Body.difficultyScore params in
  let sprintBonus := Body.sprintBonus params in
  let winability := Body.winability params in
  let color := Body.color params in
  {| winability := Math_round winability;
     color := color;
     breakdown := {| gapScore := Math_round gapScore;
                     difficultyScore := Math_round difficultyScore;
                     sprintBonus := sprintBonus |} |}.

(** ** Finite arithmetic behind the engine

    Rational counterparts of the helpers and closed forms of the local
    constants, used to reason about [computeWinability]. *)

Definition qmin (a b : Q) : Q := if Qle_bool a b then a else b.
Definition qmax (a b : Q) : Q := if Qle_bool a b then b else a.
Definition qclamp (n lo hi : Q) : Q := qmax lo (qmin hi n).

Definition gapQ (a : Q) : Q := qclamp (100 - a / 60 * 100) 0 100.
Definition penQ (c m a : Q) : Q := qclamp (a / c * m) 0 m.
Definition diffQ (dp ep : Q) : Q := qclamp (100 - (dp + ep)) 0 100.
Definition winQ (gs ds sb : Q) : Q :=
  qclamp (gs * (65 # 100) + ds * (25 # 100) + sb * (1 # 10)) 0 100.

(** Value of [gapScore] at a gap that is not [NaN]. *)
Definition gapV (g : number) : Q :=
  match g with Fin a => gapQ a | PosInf => 0 | _ => 100 end.

(** Value of a penalty [clamp(x / c * m, 0, m)] at an [x] that is not
    [NaN]. *)
Definition penV (c m : Q) (x : number) : Q :=
  match x with Fin a => penQ c m a | PosInf => m | _ => 0 end.

(** Value of [sprintBonus]; a [NaN] distance fails both tests. *)
Definition sprintV (d : number) : Q :=
  match d with
  | NegInf => 10
  | Fin a => if Qle_bool a 600 then 10 else if Qle_bool a 1200 then 5 else 0
  | _ => 0
  end.

Definition winV (g d e : number) : Q :=
  winQ (gapV g) (diffQ (penV 5000 60 d) (penV 200 40 e)) (sprintV d).

(** ** The engine in binary64

    The same engine over IEEE 754 binary64 values, every operation rounded
    to nearest, ties to even.  It is run at the inputs the statements quote,
    to check there the exact arithmetic above against the rounding of the
    source's doubles. *)
Module Binary64.

Definition prec : Z := 53.
Definition emax : Z := 1024.

(** The double of an integer literal. *)
Definition of_Z (z : Z) : spec_float := binary_normalize prec emax z 0 false.

(** The double nearest to [n / d]: what a decimal literal such as [0.65]
    denotes. *)
Definition literal (n d : Z) : spec_float :=
  SFdiv prec emax (of_Z n) (of_Z d).

Definition add : spec_float -> spec_float -> spec_float := SFadd prec emax.
Definition sub : spec_float -> spec_float -> spec_float := SFsub prec emax.
Definition mul : spec_float -> spec_float -> spec_float := SFmul prec emax.
Definition div : spec_float -> spec_float -> spec_float := SFdiv prec emax.

Definition is_negative_zero (x : spec_float) : bool :=
  match x with S754_zero true => true | _ => false end.

(** [Math.min]: [NaN] if either is; [-0] is below [+0]. *)
Definition Math_min (x y : spec_float) : spec_float :=
  match x, y with
  | S754_nan, _ | _, S754_nan => S754_nan
  | _, _ => if SFltb x y then x
            else if SFltb y x then y
            else if is_negative_zero x then x else y
  end.

(** [Math.max]: [NaN] if either is; [+0] is above [-0]. *)
Definition Math_max (x y : spec_float) : spec_float :=
  match x, y with
  | S754_nan, _ | _, S754_nan => S754_nan
  | _, _ => if SFltb x y then y
            else if SFltb y x then x
            else if is_negative_zero x then y else x
  end.

(** [Math.round]: the nearest integer, a tie going towards [+Infinity]; a
    value with no fractional bits, an infinity or [NaN] is returned as it
    is, and a zero result keeps the sign of the argument. *)
Definition Math_round (x : spec_float) : spec_float :=
  match x with
  | S754_finite s m (Z.neg k) =>
      let n := if s then Z.neg m else Z.pos m in
      binary_normalize prec emax
        ((2 * n + 2 ^ Z.pos k) / (2 * 2 ^ Z.pos k))%Z 0 s
  | _ => x
  end.

Definition clamp (n min max : spec_float) : spec_float :=
  Math_max min (Math_min max n).

Record Breakdown : Type := {
  gapScore : spec_float;
  difficultyScore : spec_float;
  sprintBonus : spec_float
}.

Record Winability : Type := {
  winability : spec_float;
  color : Color;
  breakdown : Breakdown
}.

Definition computeWinability (gapSec distanceM elevationGainM : spec_float)
  : Winability :=
  let gapScore :=
    clamp (sub (of_Z 100) (mul (div gapSec (of_Z 60)) (of_Z 100)))
          (of_Z 0) (of_Z 100) in
  let distPenalty :=
    clamp (mul (div distanceM (of_Z 5000)) (of_Z 60)) (of_Z 0) (of_Z 60) in
  let elevPenalty :=
    clamp (mul (div elevationGainM (of_Z 200)) (of_Z 40))
          (of_Z 0) (of_Z 40) in
  let difficultyScore :=
    clamp (sub (of_Z 100) (add distPenalty elevPenalty))
          (of_Z 0) (of_Z 100) in
  let sprintBonus :=
    if SFleb distanceM (of_Z 600) then of_Z 10
    else if SFleb distanceM (of_Z 1200) then of_Z 5
    else of_Z 0 in
  let winability :=
    clamp (add (add (mul gapScore (literal 65 100))
                    (mul difficultyScore (literal 25 100)))
               (mul sprintBonus (literal 1 10)))
          (of_Z 0) (of_Z 100) in
  let color :=
    if SFleb (of_Z 70) winability then green
    else if SFleb (of_Z 40) winability then orange
    else red in
  {| winability := Math_round winability;
     color := color;
     breakdown := {| gapScore := Math_round gapScore;
                     difficultyScore := Math_round difficultyScore;
                     sprintBonus := sprintBonus |} |}.

(** *** A grid of inputs for the replay *)

(** [lo/d, (lo+1)/d, ...]: [n] values that are mostly not exact doubles. *)
Definition fractions (lo : Z) (n : nat) (d : Z) : list spec_float :=
  map (fun k => literal (lo + Z.of_nat k) d) (seq 0 n).

(** Gaps from -10 s to 70 s, distances from 0 to 6000 m, elevation gains
    from 0 to 267 m. *)
Definition gaps : list spec_float :=
  map (fun x => mul x (of_Z 10)) (fractions (-3) 25 3).
Definition distances : list spec_float :=
  map (fun x => mul x (of_Z 7000)) (fractions 0 7 7).
Definition gains : list spec_float :=
  map (fun x => mul x (of_Z 600)) (fractions 0 5 9).

Definition score (g d e : spec_float) : spec_float :=
  winability (computeWinability g d e).

(** An integer between [lo] and [hi]. *)
Definition integer_between (lo hi : Z) (x : spec_float) : bool :=
  existsb (fun k => SFeqb x (of_Z (lo + Z.of_nat k)))
          (seq 0 (Z.to_nat (hi - lo + 1))).

(** The list never rises from one element to the next. *)
Fixpoint non_increasing (l : list spec_float) : bool :=
  match l with
  | x :: (y :: _) as rest => SFleb y x && non_increasing rest
  | _ => true
  end.

(** On the grid: the score is an integer of 0..91, a gap of zero or less
    scores 100 on the gap and one of sixty or more scores 0, and the score
    never rises along a line of the grid. *)
Definition grid_ok : bool :=
  forallb (fun g => forallb (fun d => forallb (fun e =>
    let r := computeWinability g d e in
    integer_between 0 91 (winability r)
    && (negb (SFleb g (of_Z 0)) || SFeqb (gapScore (breakdown r)) (of_Z 100))
    && (negb (SFleb (of_Z 60) g) || SFeqb (gapScore (breakdown r)) (of_Z 0)))
    gains) distances) gaps
  && forallb (fun d => forallb (fun e =>
       non_increasing (map (fun g => score g d e) gaps)) gains) distances
  && forallb (fun g => forallb (fun e =>
       non_increasing (map (fun d => score g d e) distances)) gains) gaps
  && forallb (fun g => forallb (fun d =>
       non_increasing (map (fun e => score g d e) gains)) distances) gaps.

End Binary64.

(** ** Strings

    A JavaScript string is embedded as a [string] of 8-bit characters. *)

Local Open Scope string_scope.

(** [WhiteSpace] and [LineTerminator] code points below 128. *)
Definition is_white (c : ascii) : bool :=
  let n := nat_of_ascii c in
  ((9 <=? n) && (n <=? 13) || (n =? 32))%nat.

Fixpoint trimStart (s : string) : string :=
  match s with
  | String c s' => if is_white c then trimStart s' else s
  | EmptyString => EmptyString
  end.

(** Drops the white space at the end: [None] stands for a suffix that is
    white space only. *)
Fixpoint trimEnd_aux (s : string) : option string :=
  match s with
  | EmptyString => None
  | String c s' =>
      match trimEnd_aux s' with
      | Some r => Some (String c r)
      | None => if is_white c then None else Some (String c EmptyString)
      end
  end.

Definition trimEnd (s : string) : string :=
  match trimEnd_aux s with Some r => r | None => EmptyString end.

(** [s.trim()] *)
Definition trim (s : string) : string := trimEnd (trimStart s).

(** [s.split(sep)] for a separator of one character. *)
Fixpoint split (sep : ascii) (s : string) : list string :=
  match s with
  | EmptyString => [EmptyString]
  | String c s' =>
      if Ascii.eqb c sep then EmptyString :: split sep s'
      else match split sep s' with
           | p :: ps => String c p :: ps
           | [] => [String c EmptyString]
           end
  end.

Fixpoint repeat_string (n : nat) (s : string) : string :=
  match n with O => EmptyString | S n' => s ++ repeat_string n' s end.

(** [s.padStart(targetLength, padString)] *)
Definition padStart (s : string) (targetLength : nat) (padString : string)
  : string :=
  let fill := (targetLength - String.length s)%nat in
  if (fill =? 0)%nat || (String.length padString =? 0)%nat then s
  else substring 0 fill (repeat_string fill padString) ++ s.

(** [String(n)] for an integral [n]: its decimal digits (the exponent
    form that starts at 1e21 is not represented). *)
Definition String_of_int (n : Z) : string :=
  NilZero.string_of_int (Z.to_int n).

(** *** [Number(s)]: the StringToNumber conversion *)

Definition is_digit (c : ascii) : bool :=
  let n := nat_of_ascii c in ((48 <=? n) && (n <=? 57))%nat.

(** Value of a character as a hexadecimal digit. *)
Definition hex_value (c : ascii) : option Z :=
  let n := Z.of_nat (nat_of_ascii c) in
  if ((48 <=? n) && (n <=? 57))%Z then Some (n - 48)%Z
  else if ((97 <=? n) && (n <=? 102))%Z then Some (n - 87)%Z
  else if ((65 <=? n) && (n <=? 70))%Z then Some (n - 55)%Z
  else None.

(** Value of a character as a digit in the given radix. *)
Definition digit_in (radix : Z) (c : ascii) : option Z :=
  match hex_value c with
  | Some d => if (d <? radix)%Z then Some d else None
  | None => None
  end.

(** Value of a string made of digits of the radix only. *)
Fixpoint digits_value (radix : Z) (acc : Z) (s : string) : option Z :=
  match s with
  | EmptyString => Some acc
  | String c s' =>
      match digit_in radix c with
      | Some d => digits_value radix (acc * radix + d)%Z s'
      | None => None
      end
  end.

(** A literal needs at least one digit. *)
Definition integer_literal (radix : Z) (s : string) : option Z :=
  match s with
  | EmptyString => None
  | _ => digits_value radix 0 s
  end.

(** The longest prefix of decimal digits, and what follows it. *)
Fixpoint span_digits (s : string) : string * string :=
  match s with
  | String c s' =>
      if is_digit c then
        let '(d, r) := span_digits s' in (String c d, r)
      else (EmptyString, s)
  | EmptyString => (EmptyString, EmptyString)
  end.

(** An optional sign in front of a string. *)
Definition split_sign (s : string) : bool * string :=
  match s with
  | String c r =>
      if Ascii.eqb c "+" then (false, r)
      else if Ascii.eqb c "-" then (true, r)
      else (false, s)
  | EmptyString => (false, s)
  end.

(** [ExponentPart], optional: the exponent, [None] for a malformed one. *)
Definition exponent_part (s : string) : option Z :=
  match s with
  | EmptyString => Some 0%Z
  | String c r =>
      if Ascii.eqb c "e" || Ascii.eqb c "E" then
        let '(negative, ds) := split_sign r in
        match integer_literal 10 ds with
        | Some e => Some (if negative then - e else e)%Z
        | None => None
        end
      else None
  end.

(** Magnitudes from here on convert to an infinity. *)
Definition overflow_bound : Q := inject_Z (2 ^ 1024 - 2 ^ 970).

(** A finite value, or the infinity it overflows to. *)
Definition finite_or_infinite (q : Q) : number :=
  if Qle_bool overflow_bound q then PosInf
  else if Qle_bool q (- overflow_bound) then NegInf
  else Fin q.

(** [StrDecimalLiteral] *)
Definition decimal_literal (s : string) : number :=
  let '(negative, u) := split_sign s in
  if String.eqb u "Infinity" then (if negative then NegInf else PosInf)
  else
    let '(ip, r1) := span_digits u in
    let '(fp, r2) :=
      match r1 with
      | String c r => if Ascii.eqb c "." then span_digits r
                      else (EmptyString, r1)
      | EmptyString => (EmptyString, r1)
      end in
    if (String.length ip + String.length fp =? 0)%nat then NaN
    else
      match digits_value 10 0 (ip ++ fp), exponent_part r2 with
      | Some m, Some e =>
          let v := (inject_Z m * 10 ^ (e - Z.of_nat (String.length fp)))%Q in
          finite_or_infinite (if negative then - v else v)
      | _, _ => NaN
      end.

Definition radix_literal (radix : Z) (s : string) : number :=
  match integer_literal radix s with
  | Some v => finite_or_infinite (inject_Z v)
  | None => NaN
  end.

(** [Number(s)] for a string [s]. *)
Definition Number (s : string) : number :=
  match trim s with
  | EmptyString => int 0
  | String c0 (String c1 r) as t =>
      if Ascii.eqb c0 "0" && (Ascii.eqb c1 "x" || Ascii.eqb c1 "X")
      then radix_literal 16 r
      else if Ascii.eqb c0 "0" && (Ascii.eqb c1 "o" || Ascii.eqb c1 "O")
      then radix_literal 8 r
      else if Ascii.eqb c0 "0" && (Ascii.eqb c1 "b" || Ascii.eqb c1 "B")
      then radix_literal 2 r
      else decimal_literal t
  | t => decimal_literal t
  end.

(** ** Time formatting and parsing *)

(** Truncated remainder [a % b] of finite values, [b] not zero. *)
Definition Qrem (a b : Q) : Q :=
  let n := (a / b)%Q in
  let t := if Qle_bool 0 n then Qfloor n else Qceiling n in
  (a - b * inject_Z t)%Q.

(** [function secondsToMMSS(s: number)] *)
Definition secondsToMMSS (s : number) : option string :=
  match s with
  | Fin q =>
      if (s <? int 0)%js then None
      else
        let m := Qfloor (q / 60) in
        let r := round_half_up (Qrem q 60) in
        Some (String_of_int m ++ ":" ++ padStart (String_of_int r) 2 "0")
  | _ => None
  end.

(** [function secondsToTime(sec: number | null): string | null], the one
    that rounds to whole seconds. *)
Definition secondsToTime (sec : option number) : option string :=
  match sec with
  | Some (Fin q) =>
      let s := Z.max 0 (round_half_up q) in
      let h := (s / 3600)%Z in
      let m := (Z.rem s 3600 / 60)%Z in
      let r := Z.rem s 60 in
      if (0 <? h)%Z then
        Some (String_of_int h ++ ":" ++ padStart (String_of_int m) 2 "0"
              ++ ":" ++ padStart (String_of_int r) 2 "0")
      else
        Some (String_of_int m ++ ":" ++ padStart (String_of_int r) 2 "0")
  | _ => None
  end.

(** A value of type [unknown]; [JObject] stands for every value that is
    of none of the other kinds (an object, an array, a function). *)
Inductive JsValue : Type :=
| JUndefined
| JNull
| JBoolean (b : bool)
| JNumber (n : number)
| JString (s : string)
| JObject.

(** [function parseTimeToSeconds(t: unknown): number | null] *)
Definition parseTimeToSeconds (t : JsValue) : option number :=
  match t with
  | JNumber n => if Number_isFinite n then Some n else None
  | JString str =>
      let parts := map Number (split ":" (trim str)) in
      if existsb (fun n => negb (Number_isFinite n)) parts then None
      else
        match parts with
        | [m; s] => Some (m * int 60 + s)%js
        | [h; m; s] => Some (h * int 3600 + m * int 60 + s)%js
        | _ => None
        end
  | _ => None
  end.

(** The string holds the character. *)
Fixpoint has_char (c : ascii) (s : string) : bool :=
  match s with
  | EmptyString => false
  | String x s' => Ascii.eqb x c || has_char c s'
  end.

(** A character that no numeric literal holds: neither white space, nor a
    digit of any radix, nor a sign, a dot, a radix mark or a letter of
    [Infinity]. *)
Definition is_stray (c : ascii) : bool :=
  negb (is_white c)
  && match hex_value c with Some _ => false | None => true end
  && negb (has_char c "+-.xXoOInity").

(** *** Shapes of a rendered time *)

Fixpoint all_digits (s : string) : bool :=
  match s with
  | EmptyString => true
  | String c s' => is_digit c && all_digits s'
  end.

(** One digit or more. *)
Definition is_count (s : string) : bool :=
  negb (String.eqb s EmptyString) && all_digits s.

(** Two digits that read as a value below sixty. *)
Definition is_sexagesimal (s : string) : bool :=
  match s with
  | String a (String b EmptyString) =>
      is_digit a && is_digit b && (nat_of_ascii a <=? 53)%nat
  | _ => false
  end.

(** [M:SS] *)
Definition is_M_SS (s : string) : bool :=
  match split ":" s with
  | [m; ss] => is_count m && is_sexagesimal ss
  | _ => false
  end.

(** [H:MM:SS] *)
Definition is_H_MM_SS (s : string) : bool :=
  match split ":" s with
  | [h; mm; ss] => is_count h && is_sexagesimal mm && is_sexagesimal ss
  | _ => false
  end.

Definition renders (shape : string -> bool) (out : option string) : Prop :=
  exists s, out = Some s /\ shape s = true.

(** ** The access-token routine

    [getAccessTokenFromSupabase] talks to three collaborators: the process
    environment, the [strava_tokens] table behind the Supabase client and
    the upstream OAuth endpoint.  They are gathered in a [World] that the
    routine threads through, together with a log of the requests made. *)

(** A row of [strava_tokens]. *)
Module Row.
Record t : Type := {
  athlete_id : Z;
  access_token : string;
  refresh_token : string;
  expires_at : Z;
  scope : option string;
  created_at : Z
}.
End Row.

(** The object handed to [upsert]. *)
Module Upsert.
Record t : Type := {
  athlete_id : Z;
  access_token : string;
  refresh_token : string;
  expires_at : Z;
  scope : option string
}.
End Upsert.

(** The parsed body of a successful token exchange. *)
Module Refreshed.
Record t : Type := {
  access_token : string;
  refresh_token : string;
  expires_at : Z;
  scope : option string
}.
End Refreshed.

(** What [fetch] resolves to: [res.ok], [res.text()] and [res.json()]. *)
Record Response : Type := {
  ok : bool;
  text : string;
  json : Refreshed.t
}.

(** [process.env] *)
Record Env : Type := {
  NEXT_PUBLIC_SUPABASE_URL : option string;
  SUPABASE_SERVICE_ROLE_KEY : option string;
  STRAVA_CLIENT_ID : option string;
  STRAVA_CLIENT_SECRET : option string
}.

(** The fields of a form-encoded request body. *)
Definition Form : Type := list (string * string).

Inductive Event : Type :=
| DbSelectLatest
| HttpPost (url : string) (body : Form)
| DbUpsert (values : Upsert.t) (onConflict : string).

Record World : Type := {
  env : Env;
  strava_tokens : list Row.t;
  (** whether each coming request to the store fails, in order; none
      fails once the list is used up *)
  db_faults : list bool;
  (** [Date.now()], in milliseconds *)
  clock_ms : Z;
  (** the upstream token endpoint *)
  oauth_token : Form -> Response;
  log : list Event
}.

(** The [{ error, data }] pair a Supabase request resolves to. *)
Record PostgrestResult (A : Type) : Type := {
  error : option string;
  data : option A
}.

Arguments error {A} _.
Arguments data {A} _.

(** Computations over the world. *)
Definition IO (A : Type) : Type := World -> A * World.

Definition ret {A : Type} (a : A) : IO A := fun w => (a, w).

Definition bind {A B : Type} (m : IO A) (k : A -> IO B) : IO B :=
  fun w => let '(a, w') := m w in k a w'.

Notation "x <- m ;; k" := (bind m (fun x => k))
  (at level 61, m at next level, right associativity).

Definition with_log (e : Event) (w : World) : World :=
  {| env := env w; strava_tokens := strava_tokens w;
     db_faults := db_faults w; clock_ms := clock_ms w;
     oauth_token := oauth_token w; log := log w ++ [e] |}.

Definition with_table (rows : list Row.t) (w : World) : World :=
  {| env := env w; strava_tokens := rows;
     db_faults := db_faults w; clock_ms := clock_ms w;
     oauth_token := oauth_token w; log := log w |}.

(** Takes the outcome of the next store request off the list. *)
Definition next_fault (w : World) : bool * World :=
  match db_faults w with
  | [] => (false, w)
  | f :: fs =>
      (f, {| env := env w; strava_tokens := strava_tokens w;
             db_faults := fs; clock_ms := clock_ms w;
             oauth_token := oauth_token w; log := log w |})
  end.

(** The row [order("created_at", { ascending: false }).limit(1)] keeps:
    the first of those created last. *)
Fixpoint latest (rows : list Row.t) : option Row.t :=
  match rows with
  | [] => None
  | r :: rest =>
      match latest rest with
      | Some r' =>
          if (Row.created_at r <? Row.created_at r')%Z then Some r'
          else Some r
      | None => Some r
      end
  end.

(** [from("strava_tokens").select(...).order(...).limit(1).maybeSingle()] *)
Definition select_latest : IO (PostgrestResult Row.t) :=
  fun w =>
    let '(failed, w1) := next_fault (with_log DbSelectLatest w) in
    if failed then ({| error := Some "select failed"; data := None |}, w1)
    else ({| error := None; data := latest (strava_tokens w1) |}, w1).

Definition overwrite (v : Upsert.t) (r : Row.t) : Row.t :=
  {| Row.athlete_id := Row.athlete_id r;
     Row.access_token := Upsert.access_token v;
     Row.refresh_token := Upsert.refresh_token v;
     Row.expires_at := Upsert.expires_at v;
     Row.scope := Upsert.scope v;
     Row.created_at := Row.created_at r |}.

(** The table after an upsert on the conflict key [athlete_id]: the row of
    that athlete takes the new values, or a row is added for an athlete
    that has none. *)
Definition upsert_rows (v : Upsert.t) (now : Z) (rows : list Row.t)
  : list Row.t :=
  if existsb (fun r => (Row.athlete_id r =? Upsert.athlete_id v)%Z) rows
  then map (fun r => if (Row.athlete_id r =? Upsert.athlete_id v)%Z
                     then overwrite v r else r) rows
  else rows ++ [ {| Row.athlete_id := Upsert.athlete_id v;
                    Row.access_token := Upsert.access_token v;
                    Row.refresh_token := Upsert.refresh_token v;
                    Row.expires_at := Upsert.expires_at v;
                    Row.scope := Upsert.scope v;
                    Row.created_at := now |} ].

(** [from("strava_tokens").upsert(values, { onConflict })] *)
Definition upsert (values : Upsert.t) (onConflict : string)
  : IO (PostgrestResult unit) :=
  fun w =>
    let '(failed, w1) := next_fault (with_log (DbUpsert values onConflict) w) in
    if failed then ({| error := Some "upsert failed"; data := None |}, w1)
    else ({| error := None; data := None |},
          with_table (upsert_rows values (clock_ms w1) (strava_tokens w1)) w1).

(** [fetch(url, { method: "POST", body })] against the token endpoint. *)
Definition fetch_post (url : string) (body : Form) : IO Response :=
  fun w => (oauth_token w body, with_log (HttpPost url body) w).

Definition Date_now : IO Z := fun w => (clock_ms w, w).

Definition getenv (var : Env -> option string) : IO (option string) :=
  fun w => (var (env w), w).

(** [!x] for an optional string: unset or empty. *)
Definition unset (x : option string) : bool :=
  match x with
  | None => true
  | Some s => String.eqb s EmptyString
  end.

Definition value (x : option string) : string :=
  match x with Some s => s | None => EmptyString end.

(** What the routine returns: [{ error }] or [{ access_token }]. *)
Inductive TokenResult : Type :=
| Error (message : string)
| AccessToken (access_token : string).

Definition token_url : string := "https://www.strava.com/oauth/token".

(** [async function getAccessTokenFromSupabase()] *)
Definition getAccessTokenFromSupabase : IO TokenResult :=
  supabaseUrl <- getenv NEXT_PUBLIC_SUPABASE_URL ;;
  serviceKey <- getenv SUPABASE_SERVICE_ROLE_KEY ;;
  clientId <- getenv STRAVA_CLIENT_ID ;;
  clientSecret <- getenv STRAVA_CLIENT_SECRET ;;
  if unset supabaseUrl || unset serviceKey then
    ret (Error "Missing Supabase env vars")
  else if unset clientId || unset clientSecret then
    ret (Error "Missing Strava client env vars")
  else
    tokenRes <- select_latest ;;
    match error tokenRes, data tokenRes with
    | None, Some row =>
        ms <- Date_now ;;
        let now := (ms / 1000)%Z in
        if (Row.expires_at row <=? now + 60)%Z then
          res <- fetch_post token_url
                   [("client_id", value clientId);
                    ("client_secret", value clientSecret);
                    ("grant_type", "refresh_token");
                    ("refresh_token", Row.refresh_token row)] ;;
          if negb (ok res) then
            ret (Error ("Strava refresh_token failed: " ++ text res))
          else
            let refreshed := json res in
            _ <- upsert
                   {| Upsert.athlete_id := Row.athlete_id row;
                      Upsert.access_token := Refreshed.access_token refreshed;
                      Upsert.refresh_token := Refreshed.refresh_token refreshed;
                      Upsert.expires_at := Refreshed.expires_at refreshed;
                      Upsert.scope := Refreshed.scope refreshed |}
                   "athlete_id" ;;
            ret (AccessToken (Refreshed.access_token refreshed))
        else
          ret (AccessToken (Row.access_token row))
    | _, _ => ret (Error "No Strava tokens found in DB")
    end.

(** The row the store holds for an athlete. *)
Definition row_of (athlete : Z) (rows : list Row.t) : option Row.t :=
  find (fun r => (Row.athlete_id r =? athlete)%Z) rows.

(** The events of a log that reach the upstream platform. *)
Definition is_upstream_call (e : Event) : bool :=
  match e with HttpPost _ _ => true | _ => false end.

(** The events of a log that write to the store. *)
Definition is_store_write (e : Event) : bool :=
  match e with DbUpsert _ _ => true | _ => false end.

(** ** Vocabulary of the statements *)

(** The score returned for a gap, a distance and an elevation gain. *)
Definition score (g d e : number) : number :=
  winability (computeWinability
                {| gapSec := g; distanceM := d; elevationGainM := e |}).

(** A finite value in the closed range [lo..hi]. *)
Definition in_range (lo hi : Q) (x : number) : Prop :=
  exists q : Q, x = Fin q /\ (lo <= q <= hi)%Q.

(** No component of the parameter object is [NaN]. *)
Definition no_NaN (p : Params) : Prop :=
  Number_isNaN (gapSec p) = false /\ Number_isNaN (distanceM p) = false
  /\ Number_isNaN (elevationGainM p) = false.

(** Every component of the parameter object is finite. *)
Definition all_finite (p : Params) : Prop :=
  Number_isFinite (gapSec p) = true /\ Number_isFinite (distanceM p) = true
  /\ Number_isFinite (elevationGainM p) = true.

(** A short flat segment with the record tied. *)
Definition sprint_tie : Params :=
  {| gapSec := int 0; distanceM := int 500; elevationGainM := int 0 |}.

(** The outcome the end-to-end example expects of [sprint_tie]. *)
Definition expected_100 (r : Winability) : bool :=
  (gapScore (breakdown r) === int 100)%js
  && (difficultyScore (breakdown r) === int 100)%js
  && (sprintBonus (breakdown r) === int 10)%js
  && (winability r === int 100)%js
  && match color r with green => true | _ => false end.

(** The four environment variables are set. *)
Definition configured (w : World) : Prop :=
  unset (NEXT_PUBLIC_SUPABASE_URL (env w)) = false
  /\ unset (SUPABASE_SERVICE_ROLE_KEY (env w)) = false
  /\ unset (STRAVA_CLIENT_ID (env w)) = false
  /\ unset (STRAVA_CLIENT_SECRET (env w)) = false.

(** The store answers the coming read, and with the credential [r]. *)
Definition stored (w : World) (r : Row.t) : Prop :=
  hd false (db_faults w) = false /\ latest (strava_tokens w) = Some r.

(** [now], in seconds. *)
Definition now_s (w : World) : Z := (clock_ms w / 1000)%Z.

(** The body of the refresh-token exchange for the credential [r]. *)
Definition refresh_form (w : World) (r : Row.t) : Form :=
  [("client_id", value (STRAVA_CLIENT_ID (env w)));
   ("client_secret", value (STRAVA_CLIENT_SECRET (env w)));
   ("grant_type", "refresh_token");
   ("refresh_token", Row.refresh_token r)].

(** What the upstream endpoint answers to that exchange. *)
Definition refresh_response (w : World) (r : Row.t) : Response :=
  oauth_token w (refresh_form w r).

(** The values written back after a successful exchange. *)
Definition refreshed_values (w : World) (r : Row.t) : Upsert.t :=
  let refreshed := json (refresh_response w r) in
  {| Upsert.athlete_id := Row.athlete_id r;
     Upsert.access_token := Refreshed.access_token refreshed;
     Upsert.refresh_token := Refreshed.refresh_token refreshed;
     Upsert.expires_at := Refreshed.expires_at refreshed;
     Upsert.scope := Refreshed.scope refreshed |}.

(** The store accepts the write that follows the read. *)
Definition write_accepted (w : World) : Prop :=
  hd false (tl (db_faults w)) = false.

(** A sample world: one stored credential, no store faults, and an
    upstream endpoint that answers every exchange with [answer]. *)
Definition sample_row (expires : Z) : Row.t :=
  {| Row.athlete_id := 42;
     Row.access_token := "old-access";
     Row.refresh_token := "old-refresh";
     Row.expires_at := expires;
     Row.scope := Some "read";
     Row.created_at := 1700000000 |}.

Definition sample_world (expires : Z) (answer : Response) : World :=
  {| env := {| NEXT_PUBLIC_SUPABASE_URL := Some "https://db.example";
               SUPABASE_SERVICE_ROLE_KEY := Some "service-key";
               STRAVA_CLIENT_ID := Some "client";
               STRAVA_CLIENT_SECRET := Some "secret" |};
     strava_tokens := [sample_row expires];
     db_faults := [];
     clock_ms := 1700000100500;
     oauth_token := fun _ => answer;
     log := [] |}.

Definition sample_success : Response :=
  {| ok := true;
     text := EmptyString;
     json := {| Refreshed.access_token := "new-access";
                Refreshed.refresh_token := "new-refresh";
                Refreshed.expires_at := 1700021700;
                Refreshed.scope := None |} |}.

Definition sample_failure : Response :=
  {| ok := false;
     text := "Bad Request: invalid refresh token";
     json := {| Refreshed.access_token := EmptyString;
                Refreshed.refresh_token := EmptyString;
                Refreshed.expires_at := 0;
                Refreshed.scope := None |} |}.

(** * The rest of the routes

    [score/route.ts] holds three successive routes.  The first (lines
    1-268) is the weighted one modelled above.  The second (lines 269-544,
    [RouteB] below) scores in steps, renders times with [secondsToTime] and
    parses them with [parseTimeToSeconds], both modelled above.  The third
    (lines 545-760, [RouteC]) keeps the steps and floors its times. *)

(** ** More of JavaScript's numbers *)

(** [!x] for a number: zero and [NaN] are falsy. *)
Definition falsy (x : number) : bool :=
  match x with
  | NaN => true
  | Fin q => Qeq_bool q 0
  | _ => false
  end.

(** [Math.abs] *)
Definition Math_abs (x : number) : number :=
  match x with
  | NaN => NaN
  | Fin q => Fin (Qabs q)
  | _ => PosInf
  end.

(** [x % y], the remainder that takes the sign of [x]. *)
Definition rem (x y : number) : number :=
  match x, y with
  | Fin a, Fin b => if Qeq_bool b 0 then NaN else Fin (Qrem a b)
  | Fin a, (PosInf | NegInf) => Fin a
  | _, _ => NaN
  end.

(** [String(x)] for an [x] that is integral or not finite, as the results
    of [Math.floor] and [Math.round] are. *)
Definition String_of_number (x : number) : string :=
  match x with
  | NaN => "NaN"
  | NegInf => "-Infinity"
  | Fin q => String_of_int (Qfloor q)
  | PosInf => "Infinity"
  end.

(** [Number(p)] for a query parameter: [null] when the parameter is absent,
    and [Number(null)] is zero. *)
Definition Number_of_param (p : option string) : number :=
  match p with
  | None => int 0
  | Some s => Number s
  end.

(** ** Pace helpers of the weighted route *)

(** [function paceSecondsPerKm(timeSec: number, distanceM: number)] *)
Definition paceSecondsPerKm (timeSec distanceM : number) : option number :=
  if falsy timeSec || falsy distanceM then None
  else
    let km := (distanceM / int 1000)%js in
    if (km <=? int 0)%js then None
    else Some (timeSec / km)%js.

(** [function paceToString(secPerKm: number | null)] *)
Definition paceToString (secPerKm : option number) : option string :=
  match secPerKm with
  | None => None
  | Some p =>
      let m := Math_floor (p / int 60)%js in
      let s := Math_round (rem p (int 60)) in
      Some (String_of_number m ++ ":"
            ++ padStart (String_of_number s) 2 "0" ++ "/km")
  end.

(** The [gap_time] field of the weighted route's reply; a template prints
    an absent time as [null]. *)
Definition gap_time (gapSec : option number) : option string :=
  match gapSec with
  | None => None
  | Some g =>
      Some ((if (g >=? int 0)%js then "+" else "-")
            ++ match secondsToMMSS (Math_abs g) with
               | Some t => t
               | None => "null"
               end)
  end.

(** ** Replies of the routes *)

(** What a handler answers: a failure with its status, [error] and
    optional [details], or the callback's success.  Headers are left
    out. *)
Inductive Reply : Type :=
| Failure (status : Z) (error : string) (details : option string)
| Connected (athlete_id : Z) (scope : option string).

(** The start of the weighted route's [GET]: the segment id, then the
    access token.  It ends in the reply of an early return, or in the id
    and the bearer token the rest of the handler works with. *)
Definition GET_prologue (idStr : option string)
  : IO (Reply + number * string) :=
  let segmentId := Number_of_param idStr in
  if negb (Number_isFinite segmentId) then
    ret (inl (Failure 400 "Missing or invalid segment id" None))
  else
    token <- getAccessTokenFromSupabase ;;
    match token with
    | Error e => ret (inl (Failure 500 e None))
    | AccessToken t => ret (inr (segmentId, t))
    end.

(** ** The route that scores in steps *)
Module RouteB.

(** [function paceFromSeconds(distanceM: number, seconds: number | null)] *)
Definition paceFromSeconds (distanceM : number) (seconds : option number)
  : option string :=
  match seconds with
  | None => None
  | Some sec =>
      if negb (Number_isFinite sec) || negb (Number_isFinite distanceM)
         || (distanceM <=? int 0)%js
      then None
      else
        let secPerKm := (sec / (distanceM / int 1000))%js in
        let m := Math_floor (secPerKm / int 60)%js in
        let s := Math_round (rem secPerKm (int 60)) in
        Some (String_of_number m ++ ":"
              ++ padStart (String_of_number s) 2 "0" ++ "/km")
  end.

Record Stepped : Type := {
  winability : number;
  color : Color
}.

(** [function computeWinability(gapSec: number)] *)
Definition computeWinability (gapSec : number) : Stepped :=
  let score :=
    if (gapSec <=? int 5)%js then int 95
    else if (gapSec <=? int 15)%js then int 80
    else if (gapSec <=? int 30)%js then int 60
    else if (gapSec <=? int 60)%js then int 40
    else int 15 in
  let color :=
    if (score >=? int 70)%js then green
    else if (score >=? int 40)%js then orange
    else red in
  {| winability := score; color := color |}.

(** [async function refreshStravaToken(params)]: the parsed answer, or the
    message of the [Error] it throws. *)
Definition refreshStravaToken (clientId clientSecret refreshToken : string)
  : IO (string + Refreshed.t) :=
  res <- fetch_post token_url
           [("client_id", clientId);
            ("client_secret", clientSecret);
            ("grant_type", "refresh_token");
            ("refresh_token", refreshToken)] ;;
  if negb (ok res) then
    ret (inl ("Strava refresh_token failed: " ++ text res))
  else ret (inr (json res)).

(** The start of this route's [GET], up to the bearer token; an [Error]
    thrown on the way is caught at the end of the handler and answered
    with its message. *)
Definition GET_prologue (idStr : option string)
  : IO (Reply + number * string) :=
  let segmentId := Number_of_param idStr in
  if negb (Number_isFinite segmentId) then
    ret (inl (Failure 400 "Missing or invalid segment id" None))
  else
    supabaseUrl <- getenv NEXT_PUBLIC_SUPABASE_URL ;;
    serviceKey <- getenv SUPABASE_SERVICE_ROLE_KEY ;;
    clientId <- getenv STRAVA_CLIENT_ID ;;
    clientSecret <- getenv STRAVA_CLIENT_SECRET ;;
    if unset supabaseUrl || unset serviceKey then
      ret (inl (Failure 500 "Missing Supabase env vars" None))
    else if unset clientId || unset clientSecret then
      ret (inl (Failure 500 "Missing Strava client env vars" None))
    else
      tokenRes <- select_latest ;;
      match error tokenRes, data tokenRes with
      | None, Some row =>
          ms <- Date_now ;;
          let now := (ms / 1000)%Z in
          if (Row.expires_at row <=? now + 60)%Z then
            thrown_or_refreshed <-
              refreshStravaToken (value clientId) (value clientSecret)
                                 (Row.refresh_token row) ;;
            match thrown_or_refreshed with
            | inl message => ret (inl (Failure 500 message None))
            | inr refreshed =>
                _ <- upsert
                       {| Upsert.athlete_id := Row.athlete_id row;
                          Upsert.access_token :=
                            Refreshed.access_token refreshed;
                          Upsert.refresh_token :=
                            Refreshed.refresh_token refreshed;
                          Upsert.expires_at := Refreshed.expires_at refreshed;
                          Upsert.scope := Refreshed.scope refreshed |}
                       "athlete_id" ;;
                ret (inr (segmentId, Refreshed.access_token refreshed))
            end
          else ret (inr (segmentId, Row.access_token row))
      | _, _ => ret (inl (Failure 500 "No Strava tokens found in DB" None))
      end.

End RouteB.

(** ** The route that floors its times *)
Module RouteC.

(** [function secondsToTime(sec: number | null): string | null] *)
Definition secondsToTime (sec : option number) : option string :=
  match sec with
  | None => None
  | Some x =>
      if falsy x || negb (Number_isFinite x) then None
      else
        let h := Math_floor (x / int 3600)%js in
        let m := Math_floor (rem x (int 3600) / int 60)%js in
        let s := Math_floor (rem x (int 60)) in
        if (int 0 <? h)%js then
          Some (String_of_number h ++ ":"
                ++ padStart (String_of_number m) 2 "0" ++ ":"
                ++ padStart (String_of_number s) 2 "0")
        else
          Some (String_of_number m ++ ":"
                ++ padStart (String_of_number s) 2 "0")
  end.

(** [function paceFromSeconds(distanceM: number, seconds: number | null)] *)
Definition paceFromSeconds (distanceM : number) (seconds : option number)
  : option string :=
  match seconds with
  | None => None
  | Some sec =>
      if falsy sec || falsy distanceM then None
      else
        let secPerKm := (sec / (distanceM / int 1000))%js in
        let m := Math_floor (secPerKm / int 60)%js in
        let s := Math_round (rem secPerKm (int 60)) in
        Some (String_of_number m ++ ":"
              ++ padStart (String_of_number s) 2 "0" ++ "/km")
  end.

Record Stepped : Type := {
  score : number;
  color : Color
}.

(** [function computeWinability(gapSec: number)] *)
Definition computeWinability (gapSec : number) : Stepped :=
  if (gapSec <=? int 5)%js then {| score := int 95; color := green |}
  else if (gapSec <=? int 15)%js then {| score := int 80; color := green |}
  else if (gapSec <=? int 30)%js then {| score := int 60; color := orange |}
  else if (gapSec <=? int 60)%js then {| score := int 40; color := orange |}
  else {| score := int 15; color := red |}.

End RouteC.

(** ** The OAuth callback *)
Module Callback.

(** The query parameters the platform redirects with. *)
Module Query.
Record t : Type := {
  code : option string;
  error : option string
}.
End Query.

(** The answer to an authorization-code exchange: [res.ok], [res.text()]
    and the fields of [res.json()] the handler reads. *)
Record Exchange : Type := {
  ok : bool;
  text : string;
  athlete_id : option Z;
  access_token : string;
  refresh_token : string;
  expires_at : Z;
  scope : option string
}.

(** [fetch] of the token endpoint for a code exchange; [answer] is what
    the endpoint replies to such a body. *)
Definition fetch_exchange (answer : Form -> Exchange) (url : string)
           (body : Form) : IO Exchange :=
  fun w => (answer body, with_log (HttpPost url body) w).

(** [!athleteId]: absent or zero. *)
Definition no_athlete (a : option Z) : bool :=
  match a with
  | None => true
  | Some z => (z =? 0)%Z
  end.

(** [export async function GET(req: Request)] of the callback route. *)
Definition GET (answer : Form -> Exchange) (req : Query.t) : IO Reply :=
  clientId <- getenv STRAVA_CLIENT_ID ;;
  clientSecret <- getenv STRAVA_CLIENT_SECRET ;;
  supabaseUrl <- getenv NEXT_PUBLIC_SUPABASE_URL ;;
  serviceKey <- getenv SUPABASE_SERVICE_ROLE_KEY ;;
  if unset clientId || unset clientSecret then
    ret (Failure 500 "Missing STRAVA_CLIENT_ID or STRAVA_CLIENT_SECRET" None)
  else if unset supabaseUrl || unset serviceKey then
    ret (Failure 500
           "Missing NEXT_PUBLIC_SUPABASE_URL or SUPABASE_SERVICE_ROLE_KEY"
           None)
  else if negb (unset (Query.error req)) then
    ret (Failure 400 (value (Query.error req)) None)
  else if unset (Query.code req) then
    ret (Failure 400 "Missing code param from Strava" None)
  else
    tokenRes <- fetch_exchange answer token_url
                  [("client_id", value clientId);
                   ("client_secret", value clientSecret);
                   ("code", value (Query.code req));
                   ("grant_type", "authorization_code")] ;;
    if negb (ok tokenRes) then
      ret (Failure 500 "Token exchange failed" (Some (text tokenRes)))
    else if no_athlete (athlete_id tokenRes) then
      ret (Failure 500 "No athlete id in Strava response" None)
    else
      let athleteId := match athlete_id tokenRes with
                       | Some z => z
                       | None => 0%Z
                       end in
      upsertRes <- upsert
                     {| Upsert.athlete_id := athleteId;
                        Upsert.access_token := access_token tokenRes;
                        Upsert.refresh_token := refresh_token tokenRes;
                        Upsert.expires_at := expires_at tokenRes;
                        Upsert.scope := scope tokenRes |}
                     "athlete_id" ;;
      match error upsertRes with
      | Some message => ret (Failure 500 "DB upsert failed" (Some message))
      | None => ret (Connected athleteId (scope tokenRes))
      end.

End Callback.

(** ** Vocabulary of the further statements *)

(** A gap of 19.8 s on a flat segment of no length. *)
Definition edge_of_green : Params :=
  {| gapSec := Fin (198 # 10); distanceM := int 0; elevationGainM := int 0 |}.

(** A gap of 19 s on the same segment. *)
Definition inside_green : Params :=
  {| gapSec := int 19; distanceM := int 0; elevationGainM := int 0 |}.

(** The order of the tiers, [red] lowest. *)
Definition tier_rank (c : Color) : Z :=
  match c with red => 0 | orange => 1 | green => 2 end.

(** The value of a decimal numeral read from its first digit on, [acc]
    being what was read before. *)
Fixpoint uint_value (acc : Z) (d : Decimal.uint) : Z :=
  match d with
  | Decimal.Nil => acc
  | Decimal.D0 l => uint_value (acc * 10 + 0) l
  | Decimal.D1 l => uint_value (acc * 10 + 1) l
  | Decimal.D2 l => uint_value (acc * 10 + 2) l
  | Decimal.D3 l => uint_value (acc * 10 + 3) l
  | Decimal.D4 l => uint_value (acc * 10 + 4) l
  | Decimal.D5 l => uint_value (acc * 10 + 5) l
  | Decimal.D6 l => uint_value (acc * 10 + 6) l
  | Decimal.D7 l => uint_value (acc * 10 + 7) l
  | Decimal.D8 l => uint_value (acc * 10 + 8) l
  | Decimal.D9 l => uint_value (acc * 10 + 9) l
  end.

(** No character of the string is white space. *)
Fixpoint no_white (s : string) : bool :=
  match s with
  | EmptyString => true
  | String c s' => negb (is_white c) && no_white s'
  end.

(** Every character of the string is white space. *)
Fixpoint all_white (s : string) : bool :=
  match s with
  | EmptyString => true
  | String c s' => is_white c && all_white s'
  end.

(** A world whose store answers its coming requests as [faults] says. *)
Definition with_faults (faults : list bool) (w : World) : World :=
  {| env := env w; strava_tokens := strava_tokens w;
     db_faults := faults; clock_ms := clock_ms w;
     oauth_token := oauth_token w; log := log w |}.

(** A query parameter that is absent or holds white space only. *)
Definition blank (p : option string) : bool :=
  match p with
  | None => true
  | Some s => all_white s
  end.

(** Every row of the table belongs to the athlete. *)
Definition only_athlete (athlete : Z) (rows : list Row.t) : bool :=
  forallb (fun r => (Row.athlete_id r =? athlete)%Z) rows.

(** ** The nearby-segments route *)
Module Nearby.

(** [async function refreshStravaToken(params)]: the parsed answer, or the
    message of the [Error] it throws. *)
Definition refreshStravaToken (clientId clientSecret refreshToken : string)
  : IO (string + Refreshed.t) :=
  res <- fetch_post token_url
           [("client_id", clientId);
            ("client_secret", clientSecret);
            ("grant_type", "refresh_token");
            ("refresh_token", refreshToken)] ;;
  if negb (ok res) then
    ret (inl ("Strava refresh_token failed: " ++ text res))
  else ret (inr (json res)).

(** What the handler holds once it has a bearer token. *)
Record Ready : Type := {
  lat : number;
  lng : number;
  radiusKm : number;
  access_token : string
}.

(** The start of the route's [GET], up to the bearer token: the reply of
    an early return, or the coordinates and the token the rest of the
    handler works with. *)
Definition GET_prologue (latStr lngStr radiusStr : option string)
  : IO (Reply + Ready) :=
  supabaseUrl <- getenv NEXT_PUBLIC_SUPABASE_URL ;;
  serviceKey <- getenv SUPABASE_SERVICE_ROLE_KEY ;;
  clientId <- getenv STRAVA_CLIENT_ID ;;
  clientSecret <- getenv STRAVA_CLIENT_SECRET ;;
  if unset supabaseUrl || unset serviceKey then
    ret (inl (Failure 500 "Missing Supabase env vars" None))
  else if unset clientId || unset clientSecret then
    ret (inl (Failure 500 "Missing Strava client env vars" None))
  else
    let lat := Number_of_param latStr in
    let lng := Number_of_param lngStr in
    let radiusKm := Number (match radiusStr with
                            | Some s => s
                            | None => "10"
                            end) in
    if negb (Number_isFinite lat) || negb (Number_isFinite lng) then
      ret (inl (Failure 400 "Missing or invalid lat/lng" None))
    else
      tokenRes <- select_latest ;;
      match error tokenRes, data tokenRes with
      | None, Some row =>
          ms <- Date_now ;;
          let now := (ms / 1000)%Z in
          if (Row.expires_at row <=? now + 60)%Z then
            thrown_or_refreshed <-
              refreshStravaToken (value clientId) (value clientSecret)
                                 (Row.refresh_token row) ;;
            match thrown_or_refreshed with
            | inl message =>
                ret (inl (Failure 500 "Token refresh failed" (Some message)))
            | inr refreshed =>
                _ <- upsert
                       {| Upsert.athlete_id := Row.athlete_id row;
                          Upsert.access_token :=
                            Refreshed.access_token refreshed;
                          Upsert.refresh_token :=
                            Refreshed.refresh_token refreshed;
                          Upsert.expires_at := Refreshed.expires_at refreshed;
                          Upsert.scope := Refreshed.scope refreshed |}
                       "athlete_id" ;;
                ret (inr {| lat := lat; lng := lng; radiusKm := radiusKm;
                            access_token :=
                              Refreshed.access_token refreshed |})
            end
          else
            ret (inr {| lat := lat; lng := lng; radiusKm := radiusKm;
                        access_token := Row.access_token row |})
      | _, _ => ret (inl (Failure 500 "No Strava tokens found in DB" None))
      end.

(** [parts.join(sep)] *)
Fixpoint join (sep : string) (parts : list string) : string :=
  match parts with
  | [] => EmptyString
  | [p] => p
  | p :: rest => p ++ sep ++ join sep rest
  end.

(** [[s.city, s.state, s.country].filter(Boolean).join(", ")] *)
Definition location (city state country : option string) : string :=
  join ", " (map value
               (filter (fun p => negb (unset p)) [city; state; country])).

End Nearby.

(** The characters of the fields that are set, and how many are set. *)
Definition set_length (p : option string) : nat :=
  if unset p then 0%nat else String.length (value p).

Definition set_count (p : option string) : nat :=
  if unset p then 0%nat else 1%nat.

(** The body of the authorization-code exchange the callback sends. *)
Definition code_form (w : World) (req : Callback.Query.t) : Form :=
  [("client_id", value (STRAVA_CLIENT_ID (env w)));
   ("client_secret", value (STRAVA_CLIENT_SECRET (env w)));
   ("code", value (Callback.Query.code req));
   ("grant_type", "authorization_code")].

(** The row carries the credential of the exchange. *)
Definition holds (r : Row.t) (x : Callback.Exchange) : Prop :=
  Row.access_token r = Callback.access_token x
  /\ Row.refresh_token r = Callback.refresh_token x
  /\ Row.expires_at r = Callback.expires_at x
  /\ Row.scope r = Callback.scope x.

(** A sample exchange of an authorization code, and a sample redirect. *)
Definition sample_exchange : Callback.Exchange :=
  {| Callback.ok := true;
     Callback.text := EmptyString;
     Callback.athlete_id := Some 42%Z;
     Callback.access_token := "first-access";
     Callback.refresh_token := "first-refresh";
     Callback.expires_at := 1700021700;
     Callback.scope := Some "read,activity:read_all" |}.

Definition sample_redirect : Callback.Query.t :=
  {| Callback.Query.code := Some "code-123"; Callback.Query.error := None |}.

(** ** The route that starts the authorization *)
Module Start.

(** Characters [encodeURIComponent] leaves as they are. *)
Definition unreserved (c : ascii) : bool :=
  let n := nat_of_ascii c in
  ((65 <=? n) && (n <=? 90) || (97 <=? n) && (n <=? 122)
   || (48 <=? n) && (n <=? 57))%nat
  || has_char c "-_.!~*'()".

Definition hex_digit (n : nat) : ascii :=
  if (n <? 10)%nat then ascii_of_nat (48 + n) else ascii_of_nat (55 + n).

(** [%XX] for one octet. *)
Definition escape (octet : nat) : string :=
  String "%" (String (hex_digit (octet / 16))
                (String (hex_digit (octet mod 16)) EmptyString)).

(** One code unit: kept, or the escapes of the octets of its UTF-8
    form, which are two from U+0080 on. *)
Definition encode_char (c : ascii) : string :=
  let n := nat_of_ascii c in
  if unreserved c then String c EmptyString
  else if (n <? 128)%nat then escape n
  else escape (192 + n / 64) ++ escape (128 + n mod 64).

(** [encodeURIComponent(s)] *)
Fixpoint encodeURIComponent (s : string) : string :=
  match s with
  | EmptyString => EmptyString
  | String c s' => encode_char c ++ encodeURIComponent s'
  end.

(** [export async function GET()]: the reply of the early return, or the
    address it redirects to.  The arguments are the two variables of the
    environment it reads, [STRAVA_CLIENT_ID] and [STRAVA_REDIRECT_URI]. *)
Definition GET (clientId redirectUri : option string) : Reply + string :=
  if unset clientId || unset redirectUri then
    inl (Failure 500 "Missing STRAVA_CLIENT_ID or STRAVA_REDIRECT_URI" None)
  else
    let scope := "read,activity:read_all" in
    inr ("https://www.strava.com/oauth/authorize"
         ++ ("?client_id=" ++ encodeURIComponent (value clientId))
         ++ ("&redirect_uri=" ++ encodeURIComponent (value redirectUri))
         ++ "&response_type=code"
         ++ "&approval_prompt=auto"
         ++ ("&scope=" ++ encodeURIComponent scope)).

End Start.

(** Every character of the string is one [encodeURIComponent] may put
    out: an unreserved one or the percent sign. *)
Fixpoint all_plain (s : string) : bool :=
  match s with
  | EmptyString => true
  | String c s' => (Start.unreserved c || Ascii.eqb c "%") && all_plain s'
  end.

(** * Properties *)

(** ** Rational arithmetic *)

Lemma Qle_bool_false (a b : Q) : Qle_bool a b = false -> (b < a)%Q.
Proof.
  intros H. destruct (Qlt_le_dec b a) as [L | L]; [exact L |].
  apply Qle_bool_iff in L. congruence.
Qed.

(** Case split on every rational comparison in sight. *)
Ltac qbool :=
  repeat match goal with
  | H : Qle_bool _ _ = true |- _ => apply Qle_bool_iff in H
  | H : Qle_bool _ _ = false |- _ => apply Qle_bool_false in H
  | |- context [Qle_bool ?a ?b] =>
      let E := fresh "E" in destruct (Qle_bool a b) eqn:E
  | H : context [Qle_bool ?a ?b] |- _ =>
      let E := fresh "E" in destruct (Qle_bool a b) eqn:E
  end.

Lemma qclamp_range (n lo hi : Q) :
  (lo <= hi)%Q -> (lo <= qclamp n lo hi <= hi)%Q.
Proof. intros H. unfold qclamp, qmax, qmin. qbool; lra. Qed.

Lemma qclamp_mono (n1 n2 lo hi : Q) :
  (n1 <= n2)%Q -> (qclamp n1 lo hi <= qclamp n2 lo hi)%Q.
Proof. intros H. unfold qclamp, qmax, qmin. qbool; lra. Qed.

Lemma qclamp_comp (n1 n2 lo hi : Q) :
  (n1 == n2)%Q -> (qclamp n1 lo hi == qclamp n2 lo hi)%Q.
Proof. intros H. unfold qclamp, qmax, qmin. qbool; lra. Qed.

Lemma Math_min_Fin (a b : Q) : Math_min (Fin a) (Fin b) = Fin (qmin a b).
Proof. unfold Math_min, qmin; simpl. now destruct (Qle_bool a b). Qed.

Lemma Math_max_Fin (a b : Q) : Math_max (Fin a) (Fin b) = Fin (qmax a b).
Proof. unfold Math_max, qmax; simpl. now destruct (Qle_bool a b). Qed.

Lemma clamp_Fin (n lo hi : Q) :
  clamp (Fin n) (Fin lo) (Fin hi) = Fin (qclamp n lo hi).
Proof. unfold clamp. now rewrite Math_min_Fin, Math_max_Fin. Qed.

Lemma round_half_up_mono (a b : Q) :
  (a <= b)%Q -> (round_half_up a <= round_half_up b)%Z.
Proof. intros H. apply Qfloor_resp_le. lra. Qed.

Lemma round_half_up_range (q : Q) (lo hi : Z) :
  (inject_Z lo <= q <= inject_Z hi)%Q -> (lo <= round_half_up q <= hi)%Z.
Proof.
  intros [L U]. unfold round_half_up. split.
  - rewrite <- (Qfloor_Z lo). apply Qfloor_resp_le. lra.
  - assert (B : (Qfloor (q + (1 # 2)) <= Qfloor (inject_Z hi + (1 # 2)))%Z)
      by (apply Qfloor_resp_le; lra).
    assert (F : (Qfloor (inject_Z hi + (1 # 2)) < hi + 1)%Z).
    { rewrite Zlt_Qlt. eapply Qle_lt_trans; [apply Qfloor_le |].
      rewrite inject_Z_plus. change (inject_Z 1) with 1%Q. lra. }
    lia.
Qed.

(** *** Arithmetic of [number] on the shapes the engine meets *)

Lemma div_Fin_pos (a b : Q) : (0 < b)%Q -> (Fin a / Fin b)%js = Fin (a / b).
Proof.
  intros H. unfold div, Qsign.
  destruct (Qcompare_spec b 0) as [E | L | G]; try lra; reflexivity.
Qed.

Lemma div_PosInf_pos (b : Q) : (0 < b)%Q -> (PosInf / Fin b)%js = PosInf.
Proof.
  intros H. unfold div, Qsign.
  destruct (Qcompare_spec b 0) as [E | L | G]; try lra; reflexivity.
Qed.

Lemma div_NegInf_pos (b : Q) : (0 < b)%Q -> (NegInf / Fin b)%js = NegInf.
Proof.
  intros H. unfold div, Qsign.
  destruct (Qcompare_spec b 0) as [E | L | G]; try lra; reflexivity.
Qed.

Lemma mul_PosInf_pos (b : Q) : (0 < b)%Q -> (PosInf * Fin b)%js = PosInf.
Proof.
  intros H. unfold mul, Qsign.
  destruct (Qcompare_spec b 0) as [E | L | G]; try lra; reflexivity.
Qed.

Lemma mul_NegInf_pos (b : Q) : (0 < b)%Q -> (NegInf * Fin b)%js = NegInf.
Proof.
  intros H. unfold mul, Qsign.
  destruct (Qcompare_spec b 0) as [E | L | G]; try lra; reflexivity.
Qed.

(** [x / c * m] for positive constants [c] and [m]. *)
Lemma scale_closed (x : number) (c m : Q) :
  (0 < c)%Q -> (0 < m)%Q ->
  (x / Fin c * Fin m)%js =
  match x with Fin a => Fin (a / c * m) | _ => x end.
Proof.
  intros Hc Hm. destruct x.
  - reflexivity.
  - now rewrite div_NegInf_pos, mul_NegInf_pos.
  - now rewrite div_Fin_pos.
  - now rewrite div_PosInf_pos, mul_PosInf_pos.
Qed.

(** *** Closed forms of the local constants *)

Lemma clamp_NegInf (lo hi : Q) : clamp NegInf (Fin lo) (Fin hi) = Fin lo.
Proof. reflexivity. Qed.

Lemma clamp_PosInf (lo hi : Q) :
  (lo <= hi)%Q -> clamp PosInf (Fin lo) (Fin hi) = Fin hi.
Proof.
  intros H. unfold clamp. simpl Math_min. unfold Math_max, le.
  apply Qle_bool_iff in H. now rewrite H.
Qed.

Lemma clamp_NaN (lo hi : number) : clamp NaN lo hi = NaN.
Proof. unfold clamp, Math_min, Math_max. destruct hi, lo; reflexivity. Qed.

Lemma penalty_closed (x : number) (c m : Q) :
  (0 < c)%Q -> (0 < m)%Q -> Number_isNaN x = false ->
  clamp (x / Fin c * Fin m)%js (Fin 0) (Fin m) = Fin (penV c m x).
Proof.
  intros Hc Hm Hx. rewrite scale_closed by assumption.
  destruct x; try discriminate; simpl penV.
  - apply clamp_NegInf.
  - apply clamp_Fin.
  - apply clamp_PosInf. lra.
Qed.

Lemma gapScore_closed (g d e : number) :
  Number_isNaN g = false ->
  Body.gapScore (Build_Params g d e) = Fin (gapV g).
Proof.
  intros Hg. unfold Body.gapScore, clamp_default, int; simpl gapSec.
  rewrite scale_closed by reflexivity.
  destruct g; try discriminate; try reflexivity.
  apply (clamp_Fin (100 - q / 60 * 100) 0 100).
Qed.

Lemma distPenalty_closed (g d e : number) :
  Number_isNaN d = false ->
  Body.distPenalty (Build_Params g d e) = Fin (penV 5000 60 d).
Proof.
  intros Hd. unfold Body.distPenalty, int; simpl distanceM.
  now apply (penalty_closed d 5000 60).
Qed.

Lemma elevPenalty_closed (g d e : number) :
  Number_isNaN e = false ->
  Body.elevPenalty (Build_Params g d e) = Fin (penV 200 40 e).
Proof.
  intros He. unfold Body.elevPenalty, int; simpl elevationGainM.
  now apply (penalty_closed e 200 40).
Qed.

Lemma difficultyScore_closed (g d e : number) :
  Number_isNaN d = false -> Number_isNaN e = false ->
  Body.difficultyScore (Build_Params g d e)
  = Fin (diffQ (penV 5000 60 d) (penV 200 40 e)).
Proof.
  intros Hd He. unfold Body.difficultyScore, clamp_default.
  rewrite distPenalty_closed, elevPenalty_closed by assumption.
  apply (clamp_Fin (100 - (penV 5000 60 d + penV 200 40 e)) 0 100).
Qed.

Lemma sprintBonus_closed (g d e : number) :
  Body.sprintBonus (Build_Params g d e) = Fin (sprintV d).
Proof.
  unfold Body.sprintBonus, int; simpl distanceM.
  destruct d as [ | | q | ]; try reflexivity.
  unfold le, sprintV.
  change (inject_Z 600) with 600%Q; change (inject_Z 1200) with 1200%Q.
  destruct (Qle_bool q 600); [reflexivity |].
  destruct (Qle_bool q 1200); reflexivity.
Qed.

Lemma winability_closed (g d e : number) :
  Number_isNaN g = false -> Number_isNaN d = false ->
  Number_isNaN e = false ->
  Body.winability (Build_Params g d e) = Fin (winV g d e).
Proof.
  intros Hg Hd He. unfold Body.winability, clamp_default.
  rewrite gapScore_closed, difficultyScore_closed, sprintBonus_closed
    by assumption.
  simpl mul; simpl add. unfold int. now rewrite clamp_Fin.
Qed.

(** A [NaN] anywhere in the parameters reaches the weighted sum. *)
Lemma add_NaN_r (x : number) : (x + NaN)%js = NaN.
Proof. now destruct x. Qed.

Lemma mul_NaN_l (x : number) : (NaN * x)%js = NaN.
Proof. reflexivity. Qed.

Lemma winability_NaN_gap (d e : number) :
  Body.winability (Build_Params NaN d e) = NaN.
Proof.
  unfold Body.winability, clamp_default.
  replace (Body.gapScore (Build_Params NaN d e)) with NaN by reflexivity.
  rewrite mul_NaN_l. simpl add at 2. simpl add. apply clamp_NaN.
Qed.

Lemma penalty_NaN (c m lo hi : number) :
  clamp (NaN / c * m)%js lo hi = NaN.
Proof. apply clamp_NaN. Qed.

Lemma difficultyScore_NaN (g d e : number) :
  Number_isNaN d || Number_isNaN e = true ->
  Body.difficultyScore (Build_Params g d e) = NaN.
Proof.
  intros H. unfold Body.difficultyScore, clamp_default.
  assert (S : (Body.distPenalty (Build_Params g d e)
               + Body.elevPenalty (Build_Params g d e))%js = NaN).
  { unfold Body.distPenalty, Body.elevPenalty; simpl distanceM;
      simpl elevationGainM.
    destruct d; simpl in H.
    - now rewrite penalty_NaN.
    - destruct e; try discriminate. rewrite penalty_NaN. apply add_NaN_r.
    - destruct e; try discriminate. rewrite penalty_NaN. apply add_NaN_r.
    - destruct e; try discriminate. rewrite penalty_NaN. apply add_NaN_r. }
  rewrite S. apply clamp_NaN.
Qed.

Lemma winability_NaN (g d e : number) :
  Number_isNaN g || Number_isNaN d || Number_isNaN e = true ->
  Body.winability (Build_Params g d e) = NaN.
Proof.
  intros H. destruct g; try apply winability_NaN_gap; simpl in H;
    unfold Body.winability, clamp_default;
    rewrite (difficultyScore_NaN _ _ _ H); rewrite mul_NaN_l, add_NaN_r;
    apply clamp_NaN.
Qed.

(** *** Ranges and monotonicity of the closed forms *)

Lemma scaleQ_mono (a b c m : Q) :
  (0 < c)%Q -> (0 <= m)%Q -> (a <= b)%Q -> (a / c * m <= b / c * m)%Q.
Proof.
  intros Hc Hm H. apply Qmult_le_compat_r; [| exact Hm].
  apply Qmult_le_compat_r; [exact H |].
  apply Qlt_le_weak, Qinv_lt_0_compat, Hc.
Qed.

Lemma scaleQ_zero (c m : Q) : (0 / c * m == 0)%Q.
Proof. unfold Qdiv. ring. Qed.

Lemma scaleQ_unit (c m : Q) : (0 < c)%Q -> (c / c * m == m)%Q.
Proof. intros H. field. lra. Qed.

Lemma leb_not_NaN (x y : number) :
  (x <=? y)%js = true -> Number_isNaN x = false /\ Number_isNaN y = false.
Proof. destruct x, y; simpl; intros; try discriminate; auto. Qed.

Lemma gapV_range (g : number) : (0 <= gapV g <= 100)%Q.
Proof. destruct g; simpl; try lra. apply qclamp_range; lra. Qed.

Lemma penV_range (c m : Q) (x : number) :
  (0 <= m)%Q -> (0 <= penV c m x <= m)%Q.
Proof. intros H. destruct x; simpl; try lra. apply qclamp_range; lra. Qed.

Lemma diffQ_range (dp ep : Q) : (0 <= diffQ dp ep <= 100)%Q.
Proof. apply qclamp_range; lra. Qed.

Lemma sprintV_range (d : number) : (0 <= sprintV d <= 10)%Q.
Proof. destruct d; simpl; try lra. qbool; lra. Qed.

Lemma winV_range (g d e : number) : (0 <= winV g d e <= 100)%Q.
Proof. apply qclamp_range; lra. Qed.

(** The weighted sum never exceeds 65 + 25 + 1. *)
Lemma winV_le_91 (g d e : number) : (winV g d e <= 91)%Q.
Proof.
  unfold winV, winQ.
  pose proof (gapV_range g) as Hg.
  pose proof (diffQ_range (penV 5000 60 d) (penV 200 40 e)) as Hd.
  pose proof (sprintV_range d) as Hs.
  unfold qclamp, qmax, qmin. qbool; lra.
Qed.

Lemma gapV_anti (g1 g2 : number) :
  (g1 <=? g2)%js = true -> (gapV g2 <= gapV g1)%Q.
Proof.
  intros H. pose proof (gapV_range g1). pose proof (gapV_range g2).
  destruct g1, g2; simpl in *; try discriminate; try lra.
  apply qclamp_mono. apply Qle_bool_iff in H.
  pose proof (@scaleQ_mono q q0 60 100). lra.
Qed.

Lemma penV_mono (c m : Q) (x1 x2 : number) :
  (0 < c)%Q -> (0 < m)%Q ->
  (x1 <=? x2)%js = true -> (penV c m x1 <= penV c m x2)%Q.
Proof.
  intros Hc Hm H.
  assert (Hm' : (0 <= m)%Q) by lra.
  pose proof (penV_range c m x1 Hm'). pose proof (penV_range c m x2 Hm').
  destruct x1, x2; simpl in *; try discriminate; try lra.
  apply qclamp_mono. apply Qle_bool_iff in H. apply scaleQ_mono; lra.
Qed.

Lemma sprintV_anti (d1 d2 : number) :
  (d1 <=? d2)%js = true -> (sprintV d2 <= sprintV d1)%Q.
Proof.
  intros H. pose proof (sprintV_range d1). pose proof (sprintV_range d2).
  destruct d1, d2; simpl in *; try discriminate; try lra.
  qbool; lra.
Qed.

Lemma diffQ_anti (dp1 dp2 ep1 ep2 : Q) :
  (dp1 <= dp2)%Q -> (ep1 <= ep2)%Q -> (diffQ dp2 ep2 <= diffQ dp1 ep1)%Q.
Proof. intros. apply qclamp_mono. lra. Qed.

Lemma winQ_mono (gs1 gs2 ds1 ds2 sb1 sb2 : Q) :
  (gs1 <= gs2)%Q -> (ds1 <= ds2)%Q -> (sb1 <= sb2)%Q ->
  (winQ gs1 ds1 sb1 <= winQ gs2 ds2 sb2)%Q.
Proof. intros. apply qclamp_mono. lra. Qed.

(** The unrounded weighted score falls when any one parameter grows. *)
Lemma winV_anti (g1 g2 d1 d2 e1 e2 : number) :
  (g1 <=? g2)%js = true -> (d1 <=? d2)%js = true -> (e1 <=? e2)%js = true ->
  (winV g2 d2 e2 <= winV g1 d1 e1)%Q.
Proof.
  intros Hg Hd He. apply winQ_mono.
  - now apply gapV_anti.
  - apply diffQ_anti; now apply penV_mono.
  - now apply sprintV_anti.
Qed.

Lemma leb_refl (x : number) : Number_isNaN x = false -> (x <=? x)%js = true.
Proof.
  destruct x; simpl; try discriminate; auto.
  intros _. apply Qle_bool_iff. lra.
Qed.


(** ** The scoring engine: results *)

Lemma int_leb (a b : Z) : (int a <=? int b)%js = true <-> (a <= b)%Z.
Proof. unfold int, le. rewrite Qle_bool_iff, Zle_Qle. reflexivity. Qed.

Lemma ltb_false_of_leb (x y : number) :
  (y <=? x)%js = true -> (x <? y)%js = false.
Proof. intros H. destruct x, y; simpl in *; try reflexivity; now rewrite H. Qed.

Lemma score_closed (g d e : number) :
  Number_isNaN g = false -> Number_isNaN d = false ->
  Number_isNaN e = false ->
  score g d e = int (round_half_up (winV g d e)).
Proof.
  intros Hg Hd He. unfold score, computeWinability. simpl winability.
  now rewrite winability_closed.
Qed.

Lemma score_NaN (g d e : number) :
  Number_isNaN g || Number_isNaN d || Number_isNaN e = true ->
  score g d e = NaN.
Proof.
  intros H. unfold score, computeWinability. simpl winability.
  now rewrite winability_NaN.
Qed.

(** The score falls, or stays, when the parameters grow. *)
Lemma score_anti (g1 g2 d1 d2 e1 e2 : number) :
  (g1 <=? g2)%js = true -> (d1 <=? d2)%js = true -> (e1 <=? e2)%js = true ->
  (score g2 d2 e2 <=? score g1 d1 e1)%js = true.
Proof.
  intros Hg Hd He.
  destruct (leb_not_NaN _ _ Hg), (leb_not_NaN _ _ Hd), (leb_not_NaN _ _ He).
  rewrite !score_closed by assumption.
  apply int_leb, round_half_up_mono. now apply winV_anti.
Qed.

Lemma score_NaN_never_less (x y : number) : x = NaN -> (x <? y)%js = false.
Proof. now intros ->. Qed.

Lemma isNaN_cases (x : number) :
  {Number_isNaN x = true} + {Number_isNaN x = false}.
Proof. destruct (Number_isNaN x); auto. Qed.

(** C1, as amended: with [distanceMeters = 500], [gapSeconds = 0] and
    [elevationGainMeters = 0] the engine returns [gapScore = 100],
    [difficultyScore = 94] (the distance penalty is 500 / 5000 * 60 = 6),
    [sprintBonus = 10], [score = 90] (the weighted sum is 89.5) and
    [colorTier = green]; so it does in exact arithmetic and in binary64. *)
Theorem computeWinability_sprint_tie :
  computeWinability sprint_tie =
  {| winability := int 90;
     color := green;
     breakdown := {| gapScore := int 100;
                     difficultyScore := int 94;
                     sprintBonus := int 10 |} |}
  /\ (Body.winability sprint_tie === Fin (895 # 10))%js = true
  /\ Binary64.computeWinability
       (Binary64.of_Z 0) (Binary64.of_Z 500) (Binary64.of_Z 0) =
     {| Binary64.winability := Binary64.of_Z 90;
        Binary64.color := green;
        Binary64.breakdown :=
          {| Binary64.gapScore := Binary64.of_Z 100;
             Binary64.difficultyScore := Binary64.of_Z 94;
             Binary64.sprintBonus := Binary64.of_Z 10 |} |}.
Proof. repeat split; vm_compute; reflexivity. Qed.

(** C1, as first stated, fails: at that input neither the difficulty score
    nor the score is 100, in exact arithmetic or in binary64. *)
Lemma sprint_tie_is_not_100 :
  expected_100 (computeWinability sprint_tie) = false
  /\ (difficultyScore (breakdown (computeWinability sprint_tie)) === int 100)%js
     = false
  /\ (winability (computeWinability sprint_tie) === int 100)%js = false
  /\ SFeqb (Binary64.winability
              (Binary64.computeWinability
                 (Binary64.of_Z 0) (Binary64.of_Z 500) (Binary64.of_Z 0)))
           (Binary64.of_Z 100) = false
  /\ SFeqb (Binary64.difficultyScore
              (Binary64.breakdown
                 (Binary64.computeWinability
                    (Binary64.of_Z 0) (Binary64.of_Z 500) (Binary64.of_Z 0))))
           (Binary64.of_Z 100) = false.
Proof. repeat split; vm_compute; reflexivity. Qed.










(** The ceiling is reached: a tie on a flat segment of no length. *)
Example score_91_reached :
  score (int 0) (int 0) (int 0) = int 91
  /\ Binary64.winability
       (Binary64.computeWinability
          (Binary64.of_Z 0) (Binary64.of_Z 0) (Binary64.of_Z 0))
     = Binary64.of_Z 91.
Proof. split; vm_compute; reflexivity. Qed.

(** The gap score in binary64 at gaps on both sides of the two bounds. *)
Example binary64_gapScore_saturates :
  map (fun g => Binary64.gapScore
                  (Binary64.breakdown
                     (Binary64.computeWinability
                        g (Binary64.of_Z 800) (Binary64.of_Z 20))))
      [Binary64.of_Z (-5); S754_zero true; Binary64.of_Z 0;
       Binary64.of_Z 60; Binary64.of_Z 75; S754_infinity false;
       S754_infinity true]
  = map Binary64.of_Z [100; 100; 100; 0; 0; 0; 100]%Z.
Proof. vm_compute. reflexivity. Qed.

(** In binary64 the ranges, the two saturations and the three monotonicities
    hold at every point of the grid. *)
Example binary64_grid : Binary64.grid_ok = true.
Proof. vm_compute. reflexivity. Qed.

(** ** Time formatting: results *)


Lemma all_digits_uint (d : Decimal.uint) :
  all_digits (NilEmpty.string_of_uint d) = true.
Proof. induction d; simpl; auto. Qed.

Lemma uint_string_nonempty (d : Decimal.uint) :
  d <> Decimal.Nil -> NilEmpty.string_of_uint d <> EmptyString.
Proof. destruct d; simpl; congruence. Qed.

(** A non-negative integer prints as one digit or more. *)
Lemma String_of_int_count (n : Z) :
  (0 <= n)%Z -> is_count (String_of_int n) = true.
Proof.
  intros H. unfold String_of_int, is_count.
  destruct n as [| p | p]; [reflexivity | | lia].
  change (Z.to_int (Z.pos p)) with (Decimal.Pos (Pos.to_uint p)).
  simpl NilZero.string_of_int. unfold NilZero.string_of_uint.
  pose proof (DecimalPos.Unsigned.to_uint_nonnil p) as NN.
  assert (E : NilEmpty.string_of_uint (Pos.to_uint p) <> EmptyString)
    by now apply uint_string_nonempty.
  destruct (Pos.to_uint p) eqn:U; try congruence;
    rewrite <- U in *; rewrite all_digits_uint;
    destruct (String.eqb_spec (NilEmpty.string_of_uint (Pos.to_uint p))
                EmptyString);
    try contradiction; reflexivity.
Qed.

(** A value below sixty, padded, prints as two digits. *)
Lemma pad2_sexagesimal (r : Z) :
  (0 <= r < 60)%Z ->
  is_sexagesimal (padStart (String_of_int r) 2 "0") = true.
Proof.
  intros H.
  assert (A : forallb
                (fun n => is_sexagesimal
                            (padStart (String_of_int (Z.of_nat n)) 2 "0"))
                (seq 0 60) = true) by (vm_compute; reflexivity).
  rewrite forallb_forall in A.
  specialize (A (Z.to_nat r)). rewrite Z2Nat.id in A by lia.
  apply A. apply in_seq. lia.
Qed.

Lemma digit_is_not_colon (c : ascii) :
  is_digit c = true -> Ascii.eqb c ":" = false.
Proof.
  intros H. destruct (Ascii.eqb_spec c ":") as [-> | N]; [| reflexivity].
  vm_compute in H. discriminate.
Qed.

Lemma split_digits (s : string) : all_digits s = true -> split ":" s = [s].
Proof.
  induction s as [| c s IH]; simpl; [reflexivity |].
  intros H. apply andb_prop in H as [Hc Hs].
  rewrite (digit_is_not_colon _ Hc), (IH Hs). reflexivity.
Qed.

Lemma split_digits_colon (a b : string) :
  all_digits a = true ->
  split ":" (a ++ String ":" b) = a :: split ":" b.
Proof.
  induction a as [| c a IH]; simpl; [reflexivity |].
  intros H. apply andb_prop in H as [Hc Ha].
  rewrite (digit_is_not_colon _ Hc), (IH Ha). reflexivity.
Qed.

Lemma sexagesimal_digits (s : string) :
  is_sexagesimal s = true -> all_digits s = true.
Proof.
  destruct s as [| a [| b [| c s]]]; simpl; try discriminate.
  intros H. apply andb_prop in H as [H _]. apply andb_prop in H as [Ha Hb].
  now rewrite Ha, Hb.
Qed.

Lemma count_digits (s : string) : is_count s = true -> all_digits s = true.
Proof. unfold is_count. intros H. now apply andb_prop in H. Qed.

Lemma M_SS_intro (m ss : string) :
  is_count m = true -> is_sexagesimal ss = true ->
  is_M_SS (m ++ ":" ++ ss) = true.
Proof.
  intros Hm Hs. unfold is_M_SS. simpl append.
  rewrite split_digits_colon by now apply count_digits.
  rewrite split_digits by now apply sexagesimal_digits.
  now rewrite Hm, Hs.
Qed.

Lemma H_MM_SS_intro (h mm ss : string) :
  is_count h = true -> is_sexagesimal mm = true ->
  is_sexagesimal ss = true ->
  is_H_MM_SS (h ++ ":" ++ mm ++ ":" ++ ss) = true.
Proof.
  intros Hh Hm Hs. unfold is_H_MM_SS. simpl append.
  rewrite split_digits_colon by now apply count_digits.
  rewrite split_digits_colon by now apply sexagesimal_digits.
  rewrite split_digits by now apply sexagesimal_digits.
  now rewrite Hh, Hm, Hs.
Qed.

Lemma round_half_up_int (z : Z) : round_half_up (inject_Z z) = z.
Proof.
  unfold round_half_up.
  pose proof (Qfloor_le (inject_Z z + (1 # 2))) as L.
  pose proof (Qlt_floor (inject_Z z + (1 # 2))) as U.
  assert (A : (inject_Z z < inject_Z (Qfloor (inject_Z z + (1 # 2)) + 1))%Q).
  { eapply Qle_lt_trans; [| exact U]. lra. }
  assert (B : (inject_Z (Qfloor (inject_Z z + (1 # 2))) < inject_Z (z + 1))%Q).
  { eapply Qle_lt_trans; [exact L |]. rewrite inject_Z_plus.
    change (inject_Z 1) with 1%Q. lra. }
  rewrite <- Zlt_Qlt in A, B. lia.
Qed.

(** The whole seconds [secondsToTime] works with. *)
Lemma secondsToTime_unfold (q : Q) :
  secondsToTime (Some (Fin q)) =
  let s := Z.max 0 (round_half_up q) in
  if (s <? 3600)%Z
  then Some (String_of_int (s / 60)
             ++ ":" ++ padStart (String_of_int (s mod 60)) 2 "0")
  else Some (String_of_int (s / 3600)
             ++ ":" ++ padStart (String_of_int ((s mod 3600) / 60)) 2 "0"
             ++ ":" ++ padStart (String_of_int (s mod 60)) 2 "0").
Proof.
  unfold secondsToTime. cbv zeta.
  set (s := Z.max 0 (round_half_up q)).
  assert (Hs : (0 <= s)%Z) by (unfold s; lia).
  rewrite !Z.rem_mod_nonneg by lia.
  destruct (Z.ltb_spec s 3600) as [L | G].
  - assert (E : (s / 3600 = 0)%Z) by (apply Z.div_small; lia).
    rewrite E. simpl (0 <? 0)%Z. cbv iota.
    now rewrite Z.mod_small by lia.
  - assert (P : (0 < s / 3600)%Z) by (apply Z.div_str_pos; lia).
    apply Z.ltb_lt in P. now rewrite P.
Qed.

Lemma secondsToTime_shapes (q : Q) :
  let s := Z.max 0 (round_half_up q) in
  ((s < 3600)%Z -> renders is_M_SS (secondsToTime (Some (Fin q))))
  /\ ((3600 <= s)%Z -> renders is_H_MM_SS (secondsToTime (Some (Fin q)))).
Proof.
  rewrite secondsToTime_unfold. cbv zeta.
  set (s := Z.max 0 (round_half_up q)).
  assert (Hs : (0 <= s)%Z) by (unfold s; lia).
  split; intros H.
  - apply Z.ltb_lt in H as H'. rewrite H'.
    eexists; split; [reflexivity |]. apply M_SS_intro.
    + apply String_of_int_count. apply Z.div_pos; lia.
    + apply pad2_sexagesimal. apply Z.mod_pos_bound. lia.
  - apply Z.ltb_ge in H as H'. rewrite H'.
    eexists; split; [reflexivity |]. apply H_MM_SS_intro.
    + apply String_of_int_count. apply Z.div_pos; lia.
    + apply pad2_sexagesimal.
      pose proof (Z.mod_pos_bound s 3600 ltac:(lia)).
      split; [apply Z.div_pos; lia | apply Z.div_lt_upper_bound; lia].
    + apply pad2_sexagesimal. apply Z.mod_pos_bound. lia.
Qed.

(** What [secondsToMMSS] prints for whole seconds. *)
Lemma secondsToMMSS_whole (z : Z) :
  (0 <= z)%Z ->
  secondsToMMSS (int z) =
  Some (String_of_int (z / 60)
        ++ ":" ++ padStart (String_of_int (z mod 60)) 2 "0").
Proof.
  intros Hz. unfold secondsToMMSS, int.
  assert (N : (Fin (inject_Z z) <? Fin (inject_Z 0))%js = false).
  { apply ltb_false_of_leb. now apply int_leb. }
  rewrite N.
  assert (M : Qfloor (inject_Z z / 60) = (z / 60)%Z)
    by (symmetry; apply (Zdiv_Qdiv z 60)).
  assert (R : round_half_up (Qrem (inject_Z z) 60) = (z mod 60)%Z).
  { unfold Qrem. cbv zeta.
    assert (P : Qle_bool 0 (inject_Z z / 60) = true).
    { apply Qle_bool_iff. apply Qle_shift_div_l; [reflexivity |].
      rewrite Qmult_0_l. change 0%Q with (inject_Z 0). now rewrite <- Zle_Qle. }
    rewrite P, M.
    rewrite <- (round_half_up_int (z mod 60)). unfold round_half_up.
    apply Qfloor_comp. rewrite (Z.mod_eq z 60) by lia.
    unfold Z.sub. rewrite inject_Z_plus, inject_Z_opp, inject_Z_mult.
    change (inject_Z 60) with 60%Q. ring. }
  now rewrite M, R.
Qed.




(** ** Time parsing: results *)

(** *** A stray character spoils a numeric literal *)

Lemma has_char_trimStart (c : ascii) (s : string) :
  is_white c = false -> has_char c s = true ->
  has_char c (trimStart s) = true.
Proof.
  intros W. induction s as [| x s IH]; simpl; [discriminate |].
  intros H. destruct (is_white x) eqn:Wx; [| exact H].
  apply IH. destruct (Ascii.eqb_spec x c) as [-> | _]; [congruence |].
  exact H.
Qed.

Lemma has_char_trimEnd (c : ascii) (s : string) :
  is_white c = false -> has_char c s = true ->
  has_char c (trimEnd s) = true.
Proof.
  intros W H. unfold trimEnd.
  assert (A : exists r, trimEnd_aux s = Some r /\ has_char c r = true).
  { induction s as [| x s IH]; simpl in *; [discriminate |].
    destruct (has_char c s) eqn:Hs.
    - destruct (IH eq_refl) as (r & -> & Hr). exists (String x r).
      split; [reflexivity |]. simpl. rewrite Hr. apply orb_true_r.
    - rewrite orb_false_r in H. destruct (trimEnd_aux s) as [r |].
      + exists (String x r). split; [reflexivity |]. simpl. now rewrite H.
      + apply Ascii.eqb_eq in H as ->. rewrite W.
        exists (String c EmptyString). split; [reflexivity |]. simpl.
        now rewrite Ascii.eqb_refl. }
  destruct A as (r & -> & Hr). exact Hr.
Qed.

Lemma has_char_trim (c : ascii) (s : string) :
  is_white c = false -> has_char c s = true -> has_char c (trim s) = true.
Proof.
  intros W H. unfold trim. now apply has_char_trimEnd, has_char_trimStart.
Qed.

Lemma has_char_tail (c x : ascii) (s : string) :
  Ascii.eqb x c = false -> has_char c (String x s) = true ->
  has_char c s = true.
Proof. simpl. now intros ->. Qed.

Lemma digits_value_stray (radix acc : Z) (c : ascii) (s : string) :
  hex_value c = None -> has_char c s = true ->
  digits_value radix acc s = None.
Proof.
  intros V. revert acc. induction s as [| x s IH]; simpl; [discriminate |].
  intros acc H. unfold digit_in.
  destruct (Ascii.eqb_spec x c) as [-> | _].
  - now rewrite V.
  - simpl in H. destruct (hex_value x) as [d |]; [| reflexivity].
    destruct (d <? radix)%Z; [| reflexivity]. now apply IH.
Qed.

Lemma integer_literal_stray (radix : Z) (c : ascii) (s : string) :
  hex_value c = None -> has_char c s = true ->
  integer_literal radix s = None.
Proof.
  intros V H. destruct s; [discriminate |].
  unfold integer_literal. now apply digits_value_stray with (c := c).
Qed.

Lemma is_digit_hex (x : ascii) : is_digit x = true -> hex_value x <> None.
Proof.
  unfold is_digit, hex_value. intros H.
  apply andb_prop in H as [A B].
  apply Nat.leb_le in A. apply Nat.leb_le in B.
  assert (L : (48 <=? Z.of_nat (nat_of_ascii x))%Z = true)
    by (apply Z.leb_le; lia).
  assert (U : (Z.of_nat (nat_of_ascii x) <=? 57)%Z = true)
    by (apply Z.leb_le; lia).
  rewrite L, U. discriminate.
Qed.

Lemma span_digits_stray (c : ascii) (s : string) :
  hex_value c = None -> has_char c s = true ->
  has_char c (snd (span_digits s)) = true.
Proof.
  intros V. induction s as [| x s IH]; simpl; [discriminate |].
  intros H. destruct (is_digit x) eqn:D; [| exact H].
  destruct (span_digits s) as [d r]. simpl in *.
  apply IH. destruct (Ascii.eqb_spec x c) as [-> | _]; [| exact H].
  now apply is_digit_hex in D.
Qed.

Lemma split_sign_stray (c : ascii) (s : string) :
  has_char c "+-" = false -> has_char c s = true ->
  has_char c (snd (split_sign s)) = true.
Proof.
  intros S H. destruct s as [| x s]; [discriminate |].
  simpl in S. apply orb_false_elim in S as [S1 S2].
  rewrite orb_false_r in S2.
  unfold split_sign.
  destruct (Ascii.eqb_spec x "+") as [-> | _];
    [simpl; now apply has_char_tail with (x := "+"%char) |].
  destruct (Ascii.eqb_spec x "-") as [-> | _];
    [simpl; now apply has_char_tail with (x := "-"%char) |].
  exact H.
Qed.

Lemma exponent_part_stray (c : ascii) (s : string) :
  hex_value c = None -> has_char c "+-" = false -> has_char c s = true ->
  exponent_part s = None.
Proof.
  intros V S H. destruct s as [| x s]; [discriminate |].
  unfold exponent_part.
  destruct (Ascii.eqb x "e" || Ascii.eqb x "E") eqn:E; [| reflexivity].
  assert (X : Ascii.eqb x c = false).
  { destruct (Ascii.eqb_spec x c) as [-> | _]; [| reflexivity].
    apply orb_prop in E as [E | E]; apply Ascii.eqb_eq in E; subst c;
      vm_compute in V; discriminate. }
  pose proof (split_sign_stray c s S (has_char_tail c x s X H)) as T.
  destruct (split_sign s) as [negative ds]. simpl in T.
  now rewrite (integer_literal_stray 10 c ds V T).
Qed.

Lemma stray_parts (c : ascii) :
  is_stray c = true ->
  is_white c = false /\ hex_value c = None
  /\ has_char c "+-.xXoOInity" = false.
Proof.
  unfold is_stray. intros H.
  apply andb_prop in H as [H S]. apply andb_prop in H as [W V].
  apply negb_true_iff in W. apply negb_true_iff in S.
  destruct (hex_value c); [discriminate | auto].
Qed.

Lemma decimal_literal_stray (c : ascii) (s : string) :
  is_stray c = true -> has_char c s = true -> decimal_literal s = NaN.
Proof.
  intros St H. destruct (stray_parts c St) as (W & V & S).
  assert (Sg : has_char c "+-" = false).
  { simpl in S |- *.
    repeat (apply orb_false_elim in S as [? S]).
    repeat (apply orb_false_intro; auto). }
  assert (Dot : Ascii.eqb "." c = false).
  { simpl in S. repeat (apply orb_false_elim in S as [? S]). auto. }
  assert (Inf : has_char c "Infinity" = false).
  { simpl in S |- *. repeat (apply orb_false_elim in S as [? S]).
    assert (F : Ascii.eqb "f" c = false).
    { destruct (Ascii.eqb_spec "f"%char c) as [<- | _]; [| reflexivity].
      vm_compute in V. discriminate. }
    repeat (apply orb_false_intro; auto). }
  unfold decimal_literal.
  pose proof (split_sign_stray c s Sg H) as U.
  destruct (split_sign s) as [negative u]. simpl in U.
  destruct (String.eqb_spec u "Infinity") as [-> | _]; [congruence |].
  pose proof (span_digits_stray c u V U) as R1.
  destruct (span_digits u) as [ip r1]. simpl in R1.
  assert (R2 : exists fp r2,
             match r1 with
             | String x r => if Ascii.eqb x "." then span_digits r
                             else (EmptyString, r1)
             | EmptyString => (EmptyString, r1)
             end = (fp, r2) /\ has_char c r2 = true).
  { destruct r1 as [| x r]; [discriminate |].
    destruct (Ascii.eqb_spec x ".") as [-> | _].
    - pose proof (span_digits_stray c r V
                    (has_char_tail c "."%char r Dot R1)) as T.
      destruct (span_digits r) as [fp r2]. now exists fp, r2.
    - now exists EmptyString, (String x r). }
  destruct R2 as (fp & r2 & -> & T).
  destruct (String.length ip + String.length fp =? 0)%nat; [reflexivity |].
  rewrite (exponent_part_stray c r2 V Sg T).
  now destruct (digits_value 10 0 (ip ++ fp)).
Qed.

(** A component that holds a stray character is not a number. *)
Lemma Number_stray (c : ascii) (s : string) :
  is_stray c = true -> has_char c s = true -> Number s = NaN.
Proof.
  intros St H. destruct (stray_parts c St) as (W & V & S).
  pose proof (has_char_trim c s W H) as T. unfold Number.
  destruct (trim s) as [| c0 [| c1 r]] eqn:E; [discriminate | |].
  - now apply decimal_literal_stray with (c := c).
  - assert (Radix : forall radix (m : ascii),
               Ascii.eqb c0 "0" = true -> Ascii.eqb m c = false ->
               c1 = m -> radix_literal radix r = NaN).
    { intros radix m Z0 M ->. unfold radix_literal.
      rewrite (integer_literal_stray radix c r V); [reflexivity |].
      apply Ascii.eqb_eq in Z0. subst c0.
      apply has_char_tail with (x := m); [exact M |].
      apply has_char_tail with (x := "0"%char); [| exact T].
      destruct (Ascii.eqb_spec "0"%char c) as [<- | _]; [| reflexivity].
      vm_compute in V. discriminate. }
    assert (B : Ascii.eqb "b" c = false /\ Ascii.eqb "B" c = false).
    { split.
      - destruct (Ascii.eqb_spec "b"%char c) as [<- | _]; [| reflexivity].
        vm_compute in V. discriminate.
      - destruct (Ascii.eqb_spec "B"%char c) as [<- | _]; [| reflexivity].
        vm_compute in V. discriminate. }
    simpl in S. repeat (apply orb_false_elim in S as [? S]).
    destruct (Ascii.eqb c0 "0") eqn:Z0; simpl;
      [| now apply decimal_literal_stray with (c := c)].
    destruct (Ascii.eqb_spec c1 "x");
      [simpl; now apply (Radix 16%Z "x"%char) |].
    destruct (Ascii.eqb_spec c1 "X");
      [simpl; now apply (Radix 16%Z "X"%char) |].
    destruct (Ascii.eqb_spec c1 "o");
      [simpl; now apply (Radix 8%Z "o"%char) |].
    destruct (Ascii.eqb_spec c1 "O");
      [simpl; now apply (Radix 8%Z "O"%char) |].
    destruct (Ascii.eqb_spec c1 "b");
      [simpl; now apply (Radix 2%Z "b"%char); try apply B |].
    destruct (Ascii.eqb_spec c1 "B");
      [simpl; now apply (Radix 2%Z "B"%char); try apply B |].
    simpl. now apply decimal_literal_stray with (c := c).
Qed.



(** ** The access-token routine: results *)

Lemma latest_In (rows : list Row.t) (r : Row.t) :
  latest rows = Some r -> In r rows.
Proof.
  revert r. induction rows as [| x rest IH]; simpl; [discriminate |].
  intros r. destruct (latest rest) as [r' |].
  - destruct (Row.created_at x <? Row.created_at r')%Z; intros [= <-]; auto.
  - intros [= <-]. auto.
Qed.

(** A change of the rows that keeps their creation dates keeps which one
    is the latest. *)
Lemma latest_map (g : Row.t -> Row.t) (rows : list Row.t) :
  (forall r, Row.created_at (g r) = Row.created_at r) ->
  latest (map g rows) = option_map g (latest rows).
Proof.
  intros Hg. induction rows as [| x rest IH]; simpl; [reflexivity |].
  rewrite IH. destruct (latest rest) as [r' |]; simpl; [| reflexivity].
  rewrite !Hg. now destruct (Row.created_at x <? Row.created_at r')%Z.
Qed.

Lemma upsert_rows_latest (v : Upsert.t) (now : Z) (rows : list Row.t)
      (r : Row.t) :
  latest rows = Some r -> Row.athlete_id r = Upsert.athlete_id v ->
  latest (upsert_rows v now rows) = Some (overwrite v r).
Proof.
  intros L A. unfold upsert_rows.
  assert (E : existsb (fun x => (Row.athlete_id x =? Upsert.athlete_id v)%Z)
                rows = true).
  { apply existsb_exists. exists r. split; [now apply latest_In |].
    now apply Z.eqb_eq. }
  rewrite E, latest_map.
  - rewrite L. simpl. apply Z.eqb_eq in A. now rewrite A.
  - intros x. now destruct (Row.athlete_id x =? Upsert.athlete_id v)%Z.
Qed.

Lemma next_fault_ok (w : World) :
  hd false (db_faults w) = false ->
  fst (next_fault w) = false
  /\ strava_tokens (snd (next_fault w)) = strava_tokens w
  /\ log (snd (next_fault w)) = log w
  /\ clock_ms (snd (next_fault w)) = clock_ms w
  /\ oauth_token (snd (next_fault w)) = oauth_token w
  /\ env (snd (next_fault w)) = env w
  /\ db_faults (snd (next_fault w)) = tl (db_faults w).
Proof.
  unfold next_fault. destruct (db_faults w) as [| f fs] eqn:E; simpl;
    intros H; repeat split; auto.
Qed.

Section Refresh.

(** A configured routine, and the credential the store serves it. *)
Variable w : World.
Variable r : Row.t.
Hypothesis Hconfigured : configured w.
Hypothesis Hstored : stored w r.

(** The three ways the routine runs from there. *)
Lemma getAccessToken_runs :
  let res := fst (getAccessTokenFromSupabase w) in
  let w' := snd (getAccessTokenFromSupabase w) in
  if (Row.expires_at r <=? now_s w + 60)%Z then
    if ok (refresh_response w r) then
      res = AccessToken
              (Refreshed.access_token (json (refresh_response w r)))
      /\ log w' = (log w ++ [DbSelectLatest;
                             HttpPost token_url (refresh_form w r);
                             DbUpsert (refreshed_values w r) "athlete_id"])%list
      /\ (write_accepted w ->
          strava_tokens w' =
          upsert_rows (refreshed_values w r) (clock_ms w) (strava_tokens w))
      /\ (~ write_accepted w -> strava_tokens w' = strava_tokens w)
    else
      res = Error ("Strava refresh_token failed: "
                   ++ text (refresh_response w r))
      /\ log w' = (log w ++ [DbSelectLatest;
                             HttpPost token_url (refresh_form w r)])%list
      /\ strava_tokens w' = strava_tokens w
  else
    res = AccessToken (Row.access_token r)
    /\ log w' = (log w ++ [DbSelectLatest])%list
    /\ strava_tokens w' = strava_tokens w.
Proof.
  destruct Hconfigured as (C1 & C2 & C3 & C4). destruct Hstored as (F & L).
  clear Hconfigured Hstored. cbv zeta.
  destruct w as [e tbl faults clk oauth lg].
  unfold stored, now_s, refresh_response, refresh_form, refreshed_values,
    write_accepted in *.
  simpl in C1, C2, C3, C4, F, L |- *.
  unfold getAccessTokenFromSupabase, bind, getenv, ret, select_latest,
    Date_now, fetch_post, upsert, next_fault, with_log, with_table.
  simpl. rewrite C1, C2, C3, C4. simpl.
  destruct faults as [| f fs]; simpl in F |- *; try subst f;
    rewrite L; simpl;
    (destruct (Row.expires_at r <=? clk / 1000 + 60)%Z; simpl;
     [destruct (ok (oauth _)); simpl |]);
    try (repeat split; rewrite <- ?app_assoc; simpl; auto;
         intros H; now elim H).
  destruct fs as [| [|] fs]; simpl;
    repeat split; rewrite <- ?app_assoc; simpl; auto;
    try discriminate; intros H; now elim H.
Qed.

(** C4: a stored credential that expires more than sixty seconds from now
    is returned as it is; the only request made is the read of the store:
    no call to the upstream endpoint, no write, the table left as it
    was. *)
Theorem fresh_token_fast_path :
  (Row.expires_at r > now_s w + 60)%Z ->
  fst (getAccessTokenFromSupabase w) = AccessToken (Row.access_token r)
  /\ log (snd (getAccessTokenFromSupabase w))
     = (log w ++ [DbSelectLatest])%list
  /\ filter is_upstream_call (log (snd (getAccessTokenFromSupabase w)))
     = filter is_upstream_call (log w)
  /\ filter is_store_write (log (snd (getAccessTokenFromSupabase w)))
     = filter is_store_write (log w)
  /\ strava_tokens (snd (getAccessTokenFromSupabase w)) = strava_tokens w.
Proof.
  intros E. pose proof getAccessToken_runs as R. cbv zeta in R.
  assert (B : (Row.expires_at r <=? now_s w + 60)%Z = false)
    by (apply Z.leb_gt; lia).
  rewrite B in R. destruct R as (R1 & R2 & R3).
  repeat split; auto; rewrite R2, filter_app; simpl; apply app_nil_r.
Qed.

(** C3: when the stored credential is within sixty seconds of its expiry
    and the upstream exchange answers with a failure, the routine returns
    an error that carries the body of that answer; it has read the store
    and called the endpoint once, and made no upsert: the table is as it
    was. *)
Theorem refresh_failure_leaves_store :
  (Row.expires_at r <= now_s w + 60)%Z ->
  ok (refresh_response w r) = false ->
  fst (getAccessTokenFromSupabase w)
  = Error ("Strava refresh_token failed: " ++ text (refresh_response w r))
  /\ log (snd (getAccessTokenFromSupabase w))
     = (log w ++ [DbSelectLatest;
                  HttpPost token_url (refresh_form w r)])%list
  /\ filter is_store_write (log (snd (getAccessTokenFromSupabase w)))
     = filter is_store_write (log w)
  /\ strava_tokens (snd (getAccessTokenFromSupabase w)) = strava_tokens w.
Proof.
  intros E K. pose proof getAccessToken_runs as R. cbv zeta in R.
  assert (B : (Row.expires_at r <=? now_s w + 60)%Z = true)
    by (apply Z.leb_le; lia).
  rewrite B, K in R. destruct R as (R1 & R2 & R3).
  repeat split; auto. rewrite R2, filter_app. simpl. apply app_nil_r.
Qed.


End Refresh.

Lemma fresh_token_fast_path_witness :
  fst (getAccessTokenFromSupabase (sample_world 1700003700 sample_failure))
  = AccessToken "old-access"
  /\ log (snd (getAccessTokenFromSupabase
                 (sample_world 1700003700 sample_failure)))
     = [DbSelectLatest]
  /\ strava_tokens (snd (getAccessTokenFromSupabase
                           (sample_world 1700003700 sample_failure)))
     = [sample_row 1700003700].
Proof.
  destruct (fresh_token_fast_path
              (sample_world 1700003700 sample_failure)
              (sample_row 1700003700)) as (A & B & _ & _ & C).
  - repeat split.
  - split; reflexivity.
  - reflexivity.
  - repeat split; assumption.
Defined.

Lemma refresh_failure_leaves_store_witness :
  fst (getAccessTokenFromSupabase (sample_world 1700000099 sample_failure))
  = Error "Strava refresh_token failed: Bad Request: invalid refresh token"
  /\ strava_tokens (snd (getAccessTokenFromSupabase
                           (sample_world 1700000099 sample_failure)))
     = [sample_row 1700000099].
Proof.
  destruct (refresh_failure_leaves_store
              (sample_world 1700000099 sample_failure)
              (sample_row 1700000099)) as (A & _ & _ & B).
  - repeat split.
  - split; reflexivity.
  - vm_compute. discriminate.
  - reflexivity.
  - split; assumption.
Defined.


(** * Further properties *)

(** ** The scores *)

Lemma Body_color_closed (g d e : number) :
  Number_isNaN g = false -> Number_isNaN d = false ->
  Number_isNaN e = false ->
  Body.color (Build_Params g d e) =
  if Qle_bool 70 (winV g d e) then green
  else if Qle_bool 40 (winV g d e) then orange else red.
Proof.
  intros Hg Hd He. unfold Body.color. now rewrite winability_closed.
Qed.






(** X1: the two stepped routes score alike: for every gap, [NaN] and the
    infinities included, the tier the later one spells out is the tier the
    earlier one derives from the score. *)
Theorem stepped_routes_agree (g : number) :
  RouteB.winability (RouteB.computeWinability g)
  = RouteC.score (RouteC.computeWinability g)
  /\ RouteB.color (RouteB.computeWinability g)
     = RouteC.color (RouteC.computeWinability g).
Proof.
  unfold RouteB.computeWinability, RouteC.computeWinability.
  destruct (g <=? int 5)%js; [split; reflexivity |].
  destruct (g <=? int 15)%js; [split; reflexivity |].
  destruct (g <=? int 30)%js; [split; reflexivity |].
  destruct (g <=? int 60)%js; split; reflexivity.
Qed.

(** X2: the stepped score never rises with the gap, and neither does the
    tier. *)
Theorem stepped_score_never_increases (g g' : number) :
  (g <=? g')%js = true ->
  (RouteB.winability (RouteB.computeWinability g')
   <=? RouteB.winability (RouteB.computeWinability g))%js = true
  /\ (tier_rank (RouteB.color (RouteB.computeWinability g'))
      <= tier_rank (RouteB.color (RouteB.computeWinability g)))%Z.
Proof.
  intros H. unfold RouteB.computeWinability.
  destruct g as [ | | a | ], g' as [ | | b | ]; simpl in H;
    try discriminate; cbv [int inject_Z le] in *;
    qbool; simpl; (split; [reflexivity || (exfalso; lra) | ]);
    try (cbv; discriminate); exfalso; lra.
Qed.

Lemma stepped_score_never_increases_witness :
  (RouteB.winability (RouteB.computeWinability (int 31))
   <=? RouteB.winability (RouteB.computeWinability (int 12)))%js = true
  /\ (tier_rank (RouteB.color (RouteB.computeWinability (int 31)))
      <= tier_rank (RouteB.color (RouteB.computeWinability (int 12))))%Z.
Proof.
  apply (stepped_score_never_increases (int 12) (int 31)). reflexivity.
Defined.

(** ** Times and paces *)

Lemma append_assoc (a b c : string) : ((a ++ b) ++ c = a ++ (b ++ c))%string.
Proof. induction a as [| x a IH]; simpl; [reflexivity | now rewrite IH]. Qed.

Lemma String_of_number_int (k : Z) : String_of_number (int k) = String_of_int k.
Proof. unfold String_of_number, int. now rewrite Qfloor_Z. Qed.

Lemma inject_Z_pos (b : Z) : (0 < b)%Z -> (0 < inject_Z b)%Q.
Proof. intros H. change 0%Q with (inject_Z 0). now rewrite <- Zlt_Qlt. Qed.

(** The remainder of whole numbers. *)
Lemma Qrem_whole (z b : Z) :
  (0 <= z)%Z -> (0 < b)%Z ->
  (Qrem (inject_Z z) (inject_Z b) == inject_Z (z mod b))%Q.
Proof.
  intros Hz Hb. unfold Qrem. cbv zeta.
  pose proof (inject_Z_pos b Hb) as Pb.
  assert (P : Qle_bool 0 (inject_Z z / inject_Z b) = true).
  { apply Qle_bool_iff. apply Qle_shift_div_l; [exact Pb |].
    rewrite Qmult_0_l. change 0%Q with (inject_Z 0). now rewrite <- Zle_Qle. }
  rewrite P, <- (Zdiv_Qdiv z b). rewrite (Z.mod_eq z b) by lia.
  unfold Z.sub. rewrite inject_Z_plus, inject_Z_opp, inject_Z_mult. ring.
Qed.

Lemma floor_div_whole (z b : Z) :
  (0 < b)%Z -> Math_floor (int z / int b)%js = int (z / b).
Proof.
  intros Hb. unfold int. rewrite div_Fin_pos by now apply inject_Z_pos.
  unfold Math_floor, int. now rewrite <- Zdiv_Qdiv.
Qed.

Lemma rem_whole (z b : Z) :
  (0 <= z)%Z -> (0 < b)%Z ->
  exists q, rem (int z) (int b) = Fin q /\ (q == inject_Z (z mod b))%Q.
Proof.
  intros Hz Hb. unfold rem, int.
  assert (N : Qeq_bool (inject_Z b) 0 = false).
  { destruct (Qeq_bool (inject_Z b) 0) eqn:E; [| reflexivity].
    apply Qeq_bool_iff in E. pose proof (inject_Z_pos b Hb). lra. }
  rewrite N. eexists; split; [reflexivity |]. now apply Qrem_whole.
Qed.

Lemma floor_of_whole (q : Q) (k : Z) :
  (q == inject_Z k)%Q -> Math_floor (Fin q) = int k.
Proof.
  intros E. unfold Math_floor, int. now rewrite (Qfloor_comp _ _ E), Qfloor_Z.
Qed.

Lemma floor_div_of_whole (q : Q) (k b : Z) :
  (0 < b)%Z -> (q == inject_Z k)%Q ->
  Math_floor (Fin q / int b)%js = int (k / b).
Proof.
  intros Hb E. unfold int. rewrite div_Fin_pos by now apply inject_Z_pos.
  unfold Math_floor, int.
  assert (E' : (q / inject_Z b == inject_Z k / inject_Z b)%Q)
    by now rewrite E.
  now rewrite (Qfloor_comp _ _ E'), <- Zdiv_Qdiv.
Qed.

Lemma int_ltb (a b : Z) : (int a <? int b)%js = (a <? b)%Z.
Proof.
  change ((int a <? int b)%js)
    with (negb (Qle_bool (inject_Z b) (inject_Z a))).
  destruct (Z.ltb_spec a b) as [L | G].
  - destruct (Qle_bool (inject_Z b) (inject_Z a)) eqn:E; [| reflexivity].
    apply Qle_bool_iff in E. rewrite <- Zle_Qle in E. lia.
  - assert (E : Qle_bool (inject_Z b) (inject_Z a) = true)
      by (apply Qle_bool_iff; now rewrite <- Zle_Qle).
    now rewrite E.
Qed.

(** X5: [secondsToTime] renders every finite time below half a second,
    and so every negative gap, as ["0:00"]: the sign of a lead is lost. *)
Theorem secondsToTime_hides_a_lead (q : Q) :
  (q < 1 # 2)%Q -> secondsToTime (Some (Fin q)) = Some "0:00"%string.
Proof.
  intros H. rewrite secondsToTime_unfold. cbv zeta.
  assert (R : (round_half_up q < 1)%Z).
  { rewrite Zlt_Qlt. eapply Qle_lt_trans; [apply Qfloor_le |].
    change (inject_Z 1) with 1%Q. lra. }
  replace (Z.max 0 (round_half_up q)) with 0%Z by lia. reflexivity.
Qed.

Lemma secondsToTime_hides_a_lead_witness :
  secondsToTime (Some (Fin (- (125 # 10)))) = Some "0:00"%string.
Proof. apply (secondsToTime_hides_a_lead (- (125 # 10))). reflexivity. Defined.

(** X6: on every positive whole number of seconds the flooring
    [secondsToTime] of the last route renders what the rounding one does;
    at zero it gives the absent value where the other gives ["0:00"]. *)
Theorem secondsToTime_routes_agree :
  (forall z : Z,
      (0 < z)%Z ->
      RouteC.secondsToTime (Some (int z)) = secondsToTime (Some (int z)))
  /\ RouteC.secondsToTime (Some (int 0)) = None
  /\ secondsToTime (Some (int 0)) = Some "0:00"%string.
Proof.
  split; [| split; reflexivity].
  intros z Hz. pose proof (secondsToTime_unfold (inject_Z z)) as U.
  change (Fin (inject_Z z)) with (int z) in U. rewrite U. clear U. cbv zeta.
  rewrite round_half_up_int. replace (Z.max 0 z) with z by lia.
  unfold RouteC.secondsToTime.
  assert (F : falsy (int z) = false).
  { unfold falsy, int. destruct (Qeq_bool (inject_Z z) 0) eqn:E;
      [| reflexivity].
    apply Qeq_bool_iff in E. pose proof (inject_Z_pos z Hz). lra. }
  rewrite F. simpl orb. cbv iota.
  rewrite floor_div_whole by lia.
  destruct (rem_whole z 3600) as (a & -> & Ea); [lia | lia |].
  destruct (rem_whole z 60) as (b & -> & Eb); [lia | lia |].
  rewrite (floor_div_of_whole a (z mod 3600) 60) by (lia || exact Ea).
  rewrite (floor_of_whole b (z mod 60) Eb).
  rewrite !String_of_number_int, int_ltb.
  destruct (Z.ltb_spec z 3600) as [L | G].
  - rewrite Z.div_small by lia. simpl (0 <? 0)%Z. cbv iota.
    now rewrite (Z.mod_small z 3600) by lia.
  - assert (P : (0 <? z / 3600)%Z = true)
      by (apply Z.ltb_lt, Z.div_str_pos; lia).
    now rewrite P.
Qed.

Lemma secondsToTime_routes_agree_witness :
  RouteC.secondsToTime (Some (int 3723)) = secondsToTime (Some (int 3723)).
Proof. apply (proj1 secondsToTime_routes_agree 3723%Z). lia. Defined.

Lemma floor_div_Fin (p : Q) (b : Z) :
  (0 < b)%Z -> Math_floor (Fin p / int b)%js = int (Qfloor (p / inject_Z b)).
Proof.
  intros Hb. unfold int at 1. now rewrite div_Fin_pos by now apply inject_Z_pos.
Qed.

Lemma round_rem_60 (p : Q) :
  Math_round (rem (Fin p) (int 60)) = int (round_half_up (Qrem p 60)).
Proof. reflexivity. Qed.

(** X7: a pace that is not negative prints as the time of that many
    seconds followed by ["/km"]: [paceToString] and [secondsToMMSS] cut
    the value alike. *)
Theorem paceToString_is_a_time_per_km (p : Q) :
  (0 <= p)%Q ->
  paceToString (Some (Fin p)) =
  match secondsToMMSS (Fin p) with
  | Some t => Some (t ++ "/km")%string
  | None => None
  end.
Proof.
  intros H. unfold paceToString, secondsToMMSS.
  assert (N : (Fin p <? int 0)%js = false).
  { apply ltb_false_of_leb. unfold le, int. now apply Qle_bool_iff. }
  rewrite N, floor_div_Fin by lia.
  rewrite round_rem_60, !String_of_number_int.
  now rewrite !append_assoc.
Qed.

Lemma paceToString_is_a_time_per_km_witness :
  paceToString (Some (Fin (2985 # 10))) = Some "4:59/km"%string.
Proof.
  rewrite (paceToString_is_a_time_per_km (2985 # 10)); [reflexivity |].
  vm_compute. discriminate.
Defined.

Lemma km_not_positive (d : Q) :
  Qle_bool (d / inject_Z 1000) 0 = Qle_bool d 0.
Proof.
  destruct (Qle_bool d 0) eqn:E.
  - apply Qle_bool_iff in E. apply Qle_bool_iff.
    apply Qle_shift_div_r; [reflexivity | now rewrite Qmult_0_l].
  - apply Qle_bool_false in E.
    destruct (Qle_bool (d / inject_Z 1000) 0) eqn:F; [| reflexivity].
    apply Qle_bool_iff in F.
    assert (P : (0 < d / inject_Z 1000)%Q).
    { apply Qlt_shift_div_l; [reflexivity | now rewrite Qmult_0_l]. }
    lra.
Qed.



(** *** Strings without a colon *)

Lemma has_char_trimStart_inv (c : ascii) (s : string) :
  has_char c (trimStart s) = true -> has_char c s = true.
Proof.
  induction s as [| x s IH]; simpl; [discriminate |].
  destruct (is_white x); [| exact (fun H => H)].
  intros H. rewrite (IH H). apply orb_true_r.
Qed.

Lemma has_char_trimEnd_aux_inv (c : ascii) (s r : string) :
  trimEnd_aux s = Some r -> has_char c r = true -> has_char c s = true.
Proof.
  revert r. induction s as [| x s IH]; simpl; [discriminate |].
  intros r. destruct (trimEnd_aux s) as [r' |].
  - intros [= <-]. simpl. intros H. apply orb_prop in H as [H | H].
    + now rewrite H.
    + rewrite (IH r' eq_refl H). apply orb_true_r.
  - destruct (is_white x); [discriminate |]. intros [= <-]. simpl.
    rewrite orb_false_r. intros H. now rewrite H.
Qed.

Lemma has_char_trim_inv (c : ascii) (s : string) :
  has_char c (trim s) = true -> has_char c s = true.
Proof.
  unfold trim, trimEnd. intros H. apply has_char_trimStart_inv.
  destruct (trimEnd_aux (trimStart s)) as [r |] eqn:E; [| discriminate].
  now apply (has_char_trimEnd_aux_inv c _ r).
Qed.

Lemma split_without_separator (c : ascii) (s : string) :
  has_char c s = false -> split c s = [s].
Proof.
  induction s as [| x s IH]; simpl; [reflexivity |].
  intros H. apply orb_false_elim in H as [Hx Hs].
  now rewrite Hx, (IH Hs).
Qed.

(** X10: a string without a colon never parses, whatever it holds: plain
    seconds are taken as a number but not as a string. *)
Theorem parseTimeToSeconds_needs_a_colon :
  (forall str : string,
      has_char ":" str = false -> parseTimeToSeconds (JString str) = None)
  /\ parseTimeToSeconds (JNumber (int 358)) = Some (int 358)
  /\ parseTimeToSeconds (JString "358") = None.
Proof.
  split; [| split; reflexivity].
  intros str H. unfold parseTimeToSeconds.
  assert (T : has_char ":" (trim str) = false).
  { destruct (has_char ":" (trim str)) eqn:E; [| reflexivity].
    apply has_char_trim_inv in E. congruence. }
  rewrite (split_without_separator _ _ T). simpl.
  now destruct (negb (Number_isFinite (Number (trim str)))).
Qed.

Lemma parseTimeToSeconds_needs_a_colon_witness :
  parseTimeToSeconds (JString " 12.5 ") = None.
Proof.
  apply (proj1 parseTimeToSeconds_needs_a_colon " 12.5 "%string).
  reflexivity.
Defined.


(** *** Reading back what was printed *)

Lemma digits_value_uint (d : Decimal.uint) (acc : Z) :
  digits_value 10 acc (NilEmpty.string_of_uint d) = Some (uint_value acc d).
Proof. revert acc. induction d; intros acc; simpl; auto. Qed.

Lemma uint_value_acc (d : Decimal.uint) (acc : positive) :
  uint_value (Z.pos acc) d = Z.pos (Pos.of_uint_acc d acc).
Proof.
  revert acc.
  induction d; intros acc; cbn [uint_value Pos.of_uint_acc];
    [reflexivity | ..]; rewrite <- IHd; f_equal; lia.
Qed.

Lemma uint_value_0 (d : Decimal.uint) :
  uint_value 0 d = Z.of_N (Pos.of_uint d).
Proof.
  induction d; simpl; try reflexivity; try exact IHd;
    apply uint_value_acc.
Qed.

(** The digits of a number that is not negative spell its value. *)
Lemma digits_value_String_of_int (n : Z) :
  (0 <= n)%Z -> digits_value 10 0 (String_of_int n) = Some n.
Proof.
  intros H. destruct n as [| p | p]; [reflexivity | | lia].
  unfold String_of_int.
  change (Z.to_int (Z.pos p)) with (Decimal.Pos (Pos.to_uint p)).
  simpl NilZero.string_of_int. unfold NilZero.string_of_uint.
  pose proof (DecimalPos.Unsigned.to_uint_nonnil p) as NN.
  assert (E : digits_value 10 0 (NilEmpty.string_of_uint (Pos.to_uint p))
              = Some (Z.pos p)).
  { rewrite digits_value_uint, uint_value_0.
    now rewrite DecimalPos.Unsigned.of_to. }
  destruct (Pos.to_uint p); try congruence; exact E.
Qed.

Lemma all_digits_no_white (s : string) :
  all_digits s = true -> no_white s = true.
Proof.
  induction s as [| c s IH]; simpl; [reflexivity |].
  intros H. apply andb_prop in H as [Hc Hs]. rewrite (IH Hs), andb_true_r.
  unfold is_digit in Hc. unfold is_white.
  apply andb_prop in Hc as [A B]. apply Nat.leb_le in A.
  apply negb_true_iff. apply orb_false_intro.
  - apply andb_false_intro2. apply Nat.leb_gt. lia.
  - apply Nat.eqb_neq. lia.
Qed.

Lemma no_white_app (a b : string) :
  no_white a = true -> no_white b = true -> no_white (a ++ b) = true.
Proof.
  induction a as [| c a IH]; simpl; [auto |].
  intros H Hb. apply andb_prop in H as [Hc Ha]. now rewrite Hc, IH.
Qed.

Lemma trimStart_no_white (s : string) : no_white s = true -> trimStart s = s.
Proof.
  destruct s as [| c s]; simpl; [reflexivity |].
  intros H. apply andb_prop in H as [Hc _].
  apply negb_true_iff in Hc. now rewrite Hc.
Qed.

Lemma trimEnd_no_white (s : string) : no_white s = true -> trimEnd s = s.
Proof.
  unfold trimEnd. destruct s as [| c s]; [reflexivity |].
  assert (A : forall x t, no_white (String x t) = true ->
                          trimEnd_aux (String x t) = Some (String x t)).
  { intros x t. revert x. induction t as [| y t IH]; intros x H.
    - simpl in *. rewrite andb_true_r in H. apply negb_true_iff in H.
      now rewrite H.
    - simpl in H. apply andb_prop in H as [_ H].
      change (trimEnd_aux (String x (String y t)))
        with (match trimEnd_aux (String y t) with
              | Some r => Some (String x r)
              | None => if is_white x then None
                        else Some (String x EmptyString)
              end).
      now rewrite (IH y H). }
  intros H. now rewrite (A c s H).
Qed.

Lemma trim_no_white (s : string) : no_white s = true -> trim s = s.
Proof.
  intros H. unfold trim. rewrite (trimStart_no_white s H).
  now apply trimEnd_no_white.
Qed.

Lemma span_digits_all (s : string) :
  all_digits s = true -> span_digits s = (s, EmptyString).
Proof.
  induction s as [| c s IH]; simpl; [reflexivity |].
  intros H. apply andb_prop in H as [Hc Hs]. now rewrite Hc, (IH Hs).
Qed.

Lemma append_nil_r (s : string) : (s ++ EmptyString)%string = s.
Proof. induction s as [| c s IH]; simpl; [reflexivity | now rewrite IH]. Qed.

Lemma digit_is_not (c k : ascii) :
  is_digit c = true -> is_digit k = false -> Ascii.eqb c k = false.
Proof.
  intros Hc Hk. destruct (Ascii.eqb_spec c k) as [-> | _]; congruence.
Qed.

(** [Number] of a string of digits below the overflow bound. *)
Lemma Number_of_digits (s : string) (m : Z) :
  is_count s = true -> digits_value 10 0 s = Some m ->
  (0 <= m < 10 ^ 21)%Z ->
  exists q : Q, Number s = Fin q /\ (q == inject_Z m)%Q.
Proof.
  intros C V B. unfold is_count in C. apply andb_prop in C as [NE D].
  assert (D0 : decimal_literal s = Fin (inject_Z m * 1)).
  { unfold decimal_literal.
    destruct s as [| c r]; [discriminate |].
    pose proof D as D'. simpl in D'. apply andb_prop in D' as [Hc _].
    unfold split_sign.
    rewrite (digit_is_not c "+" Hc eq_refl), (digit_is_not c "-" Hc eq_refl).
    assert (I : String.eqb (String c r) "Infinity" = false).
    { simpl. now rewrite (digit_is_not c "I" Hc eq_refl). }
    rewrite I, (span_digits_all _ D). simpl String.length.
    rewrite Nat.add_0_r. cbv iota. cbv beta. simpl Nat.eqb. cbv iota.
    rewrite append_nil_r, V. simpl exponent_part. cbv iota.
    change (10 ^ (0 - Z.of_nat 0))%Q with 1%Q. cbv zeta.
    unfold finite_or_infinite.
    assert (U : Qle_bool overflow_bound (inject_Z m * 1) = false).
    { destruct (Qle_bool overflow_bound (inject_Z m * 1)) eqn:E;
        [| reflexivity].
      apply Qle_bool_iff in E. rewrite Qmult_1_r in E. unfold overflow_bound in E.
      rewrite <- Zle_Qle in E.
      assert (P : (10 ^ 21 < 2 ^ 1024 - 2 ^ 970)%Z) by (vm_compute; reflexivity).
      lia. }
    assert (L : Qle_bool (inject_Z m * 1) (- overflow_bound) = false).
    { destruct (Qle_bool (inject_Z m * 1) (- overflow_bound)) eqn:E;
        [| reflexivity].
      apply Qle_bool_iff in E. rewrite Qmult_1_r in E.
      unfold overflow_bound in E. rewrite <- inject_Z_opp, <- Zle_Qle in E.
      assert (P : (- (2 ^ 1024 - 2 ^ 970) < 0)%Z) by (vm_compute; reflexivity).
      lia. }
    now rewrite U, L. }
  exists (inject_Z m * 1)%Q. split; [| apply Qmult_1_r].
  unfold Number. rewrite (trim_no_white s (all_digits_no_white s D)).
  destruct s as [| c0 [| c1 r]]; [discriminate | exact D0 |].
  simpl in D. apply andb_prop in D as [_ D]. apply andb_prop in D as [H1 _].
  rewrite (digit_is_not c1 "x" H1 eq_refl), (digit_is_not c1 "X" H1 eq_refl),
    (digit_is_not c1 "o" H1 eq_refl), (digit_is_not c1 "O" H1 eq_refl),
    (digit_is_not c1 "b" H1 eq_refl), (digit_is_not c1 "B" H1 eq_refl).
  simpl orb. rewrite !andb_false_r. exact D0.
Qed.

(** A padded value below sixty reads back as itself. *)
Lemma Number_pad2 (r : Z) :
  (0 <= r < 60)%Z ->
  exists q : Q,
    Number (padStart (String_of_int r) 2 "0") = Fin q /\ (q == inject_Z r)%Q.
Proof.
  intros H.
  assert (A : forallb
                (fun n => match Number (padStart (String_of_int (Z.of_nat n))
                                          2 "0") with
                          | Fin q => Qeq_bool q (inject_Z (Z.of_nat n))
                          | _ => false
                          end)
                (seq 0 60) = true) by (vm_compute; reflexivity).
  rewrite forallb_forall in A.
  specialize (A (Z.to_nat r)). rewrite Z2Nat.id in A by lia.
  assert (I : In (Z.to_nat r) (seq 0 60)) by (apply in_seq; lia).
  specialize (A I).
  destruct (Number (padStart (String_of_int r) 2 "0")) as [| | q |];
    try discriminate.
  exists q. split; [reflexivity | now apply Qeq_bool_iff].
Qed.

(** A count below 10^21 reads back as itself. *)
Lemma Number_String_of_int (n : Z) :
  (0 <= n < 10 ^ 21)%Z ->
  exists q : Q, Number (String_of_int n) = Fin q /\ (q == inject_Z n)%Q.
Proof.
  intros H. apply Number_of_digits; [| | exact H].
  - apply String_of_int_count. lia.
  - apply digits_value_String_of_int. lia.
Qed.

Lemma colon_no_white (a b : string) :
  all_digits a = true -> no_white b = true ->
  no_white (a ++ String ":" b) = true.
Proof.
  intros Ha Hb. apply no_white_app; [now apply all_digits_no_white |].
  simpl. exact Hb.
Qed.



(** ** The access-token routine: more results *)

(** Splits a run along the tests it makes. *)
Ltac run_cases :=
  repeat (simpl;
          match goal with
          | |- context [if ?b then _ else _] => destruct b eqn:?
          | |- context [match ?x with _ => _ end] => destruct x eqn:?
          end).

(** What every run of the routine leaves alone. *)
Lemma getAccessToken_frame (w : World) :
  let w' := snd (getAccessTokenFromSupabase w) in
  env w' = env w /\ clock_ms w' = clock_ms w
  /\ oauth_token w' = oauth_token w
  /\ (db_faults w = [] -> db_faults w' = []).
Proof.
  cbv zeta. destruct w as [e tbl faults clk oauth lg].
  unfold getAccessTokenFromSupabase, bind, getenv, ret, select_latest,
    Date_now, fetch_post, upsert, next_fault, with_log, with_table.
  destruct faults as [| [|] [| [|] fs]];
    run_cases; simpl; repeat split; auto; intros; discriminate.
Qed.

(** X12: a run that ends in an error has written nothing, whatever the
    environment, the table, the faults of the store and the answers of the
    upstream endpoint: the table is as it was and no upsert was sent. *)
Theorem token_error_never_writes (w : World) (message : string) :
  fst (getAccessTokenFromSupabase w) = Error message ->
  strava_tokens (snd (getAccessTokenFromSupabase w)) = strava_tokens w
  /\ filter is_store_write (log (snd (getAccessTokenFromSupabase w)))
     = filter is_store_write (log w).
Proof.
  destruct w as [e tbl faults clk oauth lg].
  unfold getAccessTokenFromSupabase, bind, getenv, ret, select_latest,
    Date_now, fetch_post, upsert, next_fault, with_log, with_table.
  destruct faults as [| [|] [| [|] fs]];
    run_cases; simpl; intros; try discriminate; split; auto;
    rewrite ?filter_app; simpl; now rewrite ?app_nil_r.
Qed.

Lemma token_error_never_writes_witness :
  strava_tokens (snd (getAccessTokenFromSupabase
                        (sample_world 1700000099 sample_failure)))
  = [sample_row 1700000099]
  /\ filter is_store_write
       (log (snd (getAccessTokenFromSupabase
                    (sample_world 1700000099 sample_failure))))
     = [].
Proof.
  apply (token_error_never_writes
           (sample_world 1700000099 sample_failure)
           "Strava refresh_token failed: Bad Request: invalid refresh token").
  reflexivity.
Defined.

(** X13: the routine does not look at the outcome of its upsert.  When the
    exchange succeeds and the store then refuses the write, the caller
    still gets the new access token, while the table, and with it the
    credential served next, stay the old ones. *)
Theorem failed_write_goes_unnoticed (w : World) (r : Row.t) :
  configured w -> stored w r ->
  (Row.expires_at r <= now_s w + 60)%Z ->
  ok (refresh_response w r) = true ->
  hd false (tl (db_faults w)) = true ->
  fst (getAccessTokenFromSupabase w)
  = AccessToken (Refreshed.access_token (json (refresh_response w r)))
  /\ strava_tokens (snd (getAccessTokenFromSupabase w)) = strava_tokens w
  /\ latest (strava_tokens (snd (getAccessTokenFromSupabase w))) = Some r.
Proof.
  intros Hc Hs E K F. pose proof (getAccessToken_runs w r Hc Hs) as R.
  cbv zeta in R.
  assert (B : (Row.expires_at r <=? now_s w + 60)%Z = true)
    by (apply Z.leb_le; lia).
  rewrite B, K in R. destruct R as (R1 & _ & _ & R4).
  assert (T : strava_tokens (snd (getAccessTokenFromSupabase w))
              = strava_tokens w).
  { apply R4. unfold write_accepted. rewrite F. discriminate. }
  split; [exact R1 |]. split; [exact T |]. rewrite T. apply Hs.
Qed.

Lemma failed_write_goes_unnoticed_witness :
  fst (getAccessTokenFromSupabase
         (with_faults [false; true]
            (sample_world 1700000099 sample_success)))
  = AccessToken "new-access"
  /\ latest (strava_tokens
               (snd (getAccessTokenFromSupabase
                       (with_faults [false; true]
                          (sample_world 1700000099 sample_success)))))
     = Some (sample_row 1700000099).
Proof.
  destruct (failed_write_goes_unnoticed
              (with_faults [false; true]
                 (sample_world 1700000099 sample_success))
              (sample_row 1700000099)) as (A & _ & B).
  - repeat split.
  - split; reflexivity.
  - vm_compute. discriminate.
  - reflexivity.
  - reflexivity.
  - split; assumption.
Defined.

(** X14: a refresh is paid once.  After a successful exchange that the
    store has taken, any later run in the same environment and over the
    table as that run left it, made while the new expiry is more than
    sixty seconds away, returns the new access token from the store: it
    reads the store and does nothing else. *)
Theorem refreshed_token_is_reused (w w2 : World) (r : Row.t) :
  configured w -> stored w r -> write_accepted w ->
  (Row.expires_at r <= now_s w + 60)%Z ->
  ok (refresh_response w r) = true ->
  env w2 = env w ->
  strava_tokens w2 = strava_tokens (snd (getAccessTokenFromSupabase w)) ->
  hd false (db_faults w2) = false ->
  (Refreshed.expires_at (json (refresh_response w r)) > now_s w2 + 60)%Z ->
  fst (getAccessTokenFromSupabase w2) = fst (getAccessTokenFromSupabase w)
  /\ log (snd (getAccessTokenFromSupabase w2))
     = (log w2 ++ [DbSelectLatest])%list
  /\ strava_tokens (snd (getAccessTokenFromSupabase w2)) = strava_tokens w2.
Proof.
  intros Hc Hs A E K He Ht Hf X.
  pose proof (getAccessToken_runs w r Hc Hs) as R. cbv zeta in R.
  assert (B : (Row.expires_at r <=? now_s w + 60)%Z = true)
    by (apply Z.leb_le; lia).
  rewrite B, K in R. destruct R as (R1 & _ & R3 & _).
  specialize (R3 A).
  assert (Hc2 : configured w2) by (unfold configured; now rewrite He).
  assert (Hs2 : stored w2 (overwrite (refreshed_values w r) r)).
  { split; [exact Hf |]. rewrite Ht, R3.
    apply upsert_rows_latest; [apply Hs | reflexivity]. }
  pose proof (getAccessToken_runs w2 _ Hc2 Hs2) as R'. cbv zeta in R'.
  assert (B' : (Row.expires_at (overwrite (refreshed_values w r) r)
                <=? now_s w2 + 60)%Z = false).
  { apply Z.leb_gt. simpl. lia. }
  rewrite B' in R'. destruct R' as (Q1 & Q2 & Q3).
  rewrite Q1, R1. repeat split; assumption.
Qed.

Lemma refreshed_token_is_reused_witness :
  fst (getAccessTokenFromSupabase
         (snd (getAccessTokenFromSupabase
                 (sample_world 1700000099 sample_success))))
  = AccessToken "new-access"
  /\ log (snd (getAccessTokenFromSupabase
                 (snd (getAccessTokenFromSupabase
                         (sample_world 1700000099 sample_success)))))
     = [DbSelectLatest;
        HttpPost token_url
          (refresh_form (sample_world 1700000099 sample_success)
             (sample_row 1700000099));
        DbUpsert
          (refreshed_values (sample_world 1700000099 sample_success)
             (sample_row 1700000099)) "athlete_id";
        DbSelectLatest].
Proof.
  destruct (refreshed_token_is_reused
              (sample_world 1700000099 sample_success)
              (snd (getAccessTokenFromSupabase
                      (sample_world 1700000099 sample_success)))
              (sample_row 1700000099)) as (A & B & _).
  - repeat split.
  - split; reflexivity.
  - reflexivity.
  - vm_compute. discriminate.
  - reflexivity.
  - reflexivity.
  - reflexivity.
  - reflexivity.
  - reflexivity.
  - split; [exact A | exact B].
Defined.

(** ** The routes around the token *)


Lemma trimStart_all_white (s : string) :
  all_white s = true -> trimStart s = EmptyString.
Proof.
  induction s as [| c s IH]; simpl; [reflexivity |].
  intros H. apply andb_prop in H as [Hc Hs]. now rewrite Hc, IH.
Qed.

(** [Number] of nothing but white space is zero. *)
Lemma Number_of_blank (p : option string) :
  blank p = true -> Number_of_param p = int 0.
Proof.
  destruct p as [s |]; simpl; [| reflexivity].
  intros H. unfold Number, trim. now rewrite (trimStart_all_white s H).
Qed.

(** X16: a request without an [id], or with a blank one, is not refused:
    [Number] turns both into zero, so the route goes on as for segment 0,
    and [400] is never its answer. *)
Theorem blank_id_is_segment_zero (idStr : option string) (w : World) :
  blank idStr = true ->
  GET_prologue idStr w = GET_prologue (Some "0") w
  /\ forall (e : string) (d : option string),
       fst (GET_prologue idStr w) <> inl (Failure 400 e d).
Proof.
  intros H. pose proof (Number_of_blank idStr H) as N.
  assert (E : GET_prologue idStr w = GET_prologue (Some "0") w).
  { unfold GET_prologue. rewrite N. reflexivity. }
  split; [exact E |]. intros e d. rewrite E.
  unfold GET_prologue, bind, ret.
  change (Number_of_param (Some "0")) with (int 0). simpl.
  destruct (getAccessTokenFromSupabase w) as [[m | t] w']; simpl;
    intros [=].
Qed.

Lemma blank_id_is_segment_zero_witness :
  GET_prologue None (sample_world 1700003700 sample_failure)
  = GET_prologue (Some "0") (sample_world 1700003700 sample_failure)
  /\ forall (e : string) (d : option string),
       fst (GET_prologue None (sample_world 1700003700 sample_failure))
       <> inl (Failure 400 e d).
Proof.
  apply (blank_id_is_segment_zero None
           (sample_world 1700003700 sample_failure)).
  reflexivity.
Defined.



(** ** The OAuth callback *)

(** After an upsert the store holds, for the athlete, the values sent. *)
Lemma row_of_upsert_rows (v : Upsert.t) (now : Z) (rows : list Row.t) :
  exists r : Row.t,
    row_of (Upsert.athlete_id v) (upsert_rows v now rows) = Some r
    /\ Row.access_token r = Upsert.access_token v
    /\ Row.refresh_token r = Upsert.refresh_token v
    /\ Row.expires_at r = Upsert.expires_at v
    /\ Row.scope r = Upsert.scope v.
Proof.
  unfold upsert_rows, row_of.
  destruct (existsb (fun r => (Row.athlete_id r =? Upsert.athlete_id v)%Z)
              rows) eqn:E.
  - induction rows as [| x rest IH]; simpl in *; [discriminate |].
    destruct (Row.athlete_id x =? Upsert.athlete_id v)%Z eqn:X; simpl.
    + rewrite X. eexists; split; [reflexivity |]. repeat split.
    + rewrite X. apply IH. exact E.
  - induction rows as [| x rest IH]; simpl in *.
    + rewrite Z.eqb_refl. eexists; split; [reflexivity |]. repeat split.
    + apply orb_false_elim in E as [X E]. rewrite X. now apply IH.
Qed.

(** X18: the callback writes when it answers with a success and only
    then.  Whatever the environment, the redirect, the answer of the
    exchange and the faults of the store: after a success the store holds,
    for the athlete named in the reply, the credential and the scope the
    exchange returned; after any failure the table is as it was. *)
Theorem callback_stores_iff_connected
        (answer : Form -> Callback.Exchange) (req : Callback.Query.t)
        (w : World) :
  match fst (Callback.GET answer req w) with
  | Connected athlete scope =>
      Callback.athlete_id (answer (code_form w req)) = Some athlete
      /\ scope = Callback.scope (answer (code_form w req))
      /\ exists r : Row.t,
           row_of athlete (strava_tokens (snd (Callback.GET answer req w)))
           = Some r
           /\ holds r (answer (code_form w req))
  | Failure _ _ _ =>
      strava_tokens (snd (Callback.GET answer req w)) = strava_tokens w
  end.
Proof.
  destruct w as [e tbl faults clk oauth lg].
  unfold Callback.GET, Callback.fetch_exchange, code_form, holds, bind,
    getenv, ret, upsert, next_fault, with_log, with_table.
  simpl.
  destruct (unset (STRAVA_CLIENT_ID e) || unset (STRAVA_CLIENT_SECRET e));
    [reflexivity |].
  destruct (unset (NEXT_PUBLIC_SUPABASE_URL e)
            || unset (SUPABASE_SERVICE_ROLE_KEY e)); [reflexivity |].
  destruct (negb (unset (Callback.Query.error req))); [reflexivity |].
  destruct (unset (Callback.Query.code req)); [reflexivity |].
  simpl. set (x := answer _).
  destruct (negb (Callback.ok x)); [reflexivity |].
  destruct (Callback.athlete_id x) as [a |] eqn:A; simpl; [| reflexivity].
  destruct (a =? 0)%Z; [reflexivity |].
  destruct faults as [| [|] fs]; simpl; try reflexivity.
  - split; [reflexivity |]. split; [reflexivity |].
    apply (row_of_upsert_rows
             {| Upsert.athlete_id := a;
                Upsert.access_token := Callback.access_token x;
                Upsert.refresh_token := Callback.refresh_token x;
                Upsert.expires_at := Callback.expires_at x;
                Upsert.scope := Callback.scope x |}).
  - split; [reflexivity |]. split; [reflexivity |].
    apply (row_of_upsert_rows
             {| Upsert.athlete_id := a;
                Upsert.access_token := Callback.access_token x;
                Upsert.refresh_token := Callback.refresh_token x;
                Upsert.expires_at := Callback.expires_at x;
                Upsert.scope := Callback.scope x |}).
Qed.

Lemma latest_nonempty (x : Row.t) (rest : list Row.t) :
  exists r : Row.t, latest (x :: rest) = Some r.
Proof.
  simpl. destruct (latest rest) as [r' |]; [| now exists x].
  destruct (Row.created_at x <? Row.created_at r')%Z; eauto.
Qed.

(** In a table of one athlete, the latest credential after an upsert for
    that athlete carries the values sent. *)
Lemma latest_upsert_only_athlete (v : Upsert.t) (now : Z)
      (rows : list Row.t) :
  only_athlete (Upsert.athlete_id v) rows = true ->
  exists r : Row.t,
    latest (upsert_rows v now rows) = Some r
    /\ Row.access_token r = Upsert.access_token v
    /\ Row.expires_at r = Upsert.expires_at v.
Proof.
  intros O. destruct rows as [| x rest].
  - simpl. eexists; split; [reflexivity |]. split; reflexivity.
  - destruct (latest_nonempty x rest) as (r & L).
    assert (A : Row.athlete_id r = Upsert.athlete_id v).
    { unfold only_athlete in O. rewrite forallb_forall in O.
      apply Z.eqb_eq. apply O. now apply latest_In. }
    rewrite (upsert_rows_latest v now (x :: rest) r L A).
    eexists; split; [reflexivity |]. split; reflexivity.
Qed.

(** X19: connect, then score.  In a configured deployment whose store
    holds no other athlete and answers its requests, the credential a
    successful callback stored is the one the scoring routes get: while
    its expiry is more than sixty seconds away,
    [getAccessTokenFromSupabase] returns the access token of the exchange
    and asks nothing of the upstream endpoint. *)
Theorem callback_then_token
        (answer : Form -> Callback.Exchange) (req : Callback.Query.t)
        (w : World) (athlete : Z) (scope : option string) :
  configured w -> db_faults w = [] ->
  fst (Callback.GET answer req w) = Connected athlete scope ->
  only_athlete athlete (strava_tokens w) = true ->
  (Callback.expires_at (answer (code_form w req)) > now_s w + 60)%Z ->
  let w1 := snd (Callback.GET answer req w) in
  fst (getAccessTokenFromSupabase w1)
  = AccessToken (Callback.access_token (answer (code_form w req)))
  /\ log (snd (getAccessTokenFromSupabase w1))
     = (log w1 ++ [DbSelectLatest])%list.
Proof.
  intros Hc Hf Hr Ho Hx. cbv zeta.
  destruct Hc as (C1 & C2 & C3 & C4).
  destruct w as [e tbl faults clk oauth lg].
  unfold now_s, code_form in *. simpl in C1, C2, C3, C4, Hf, Ho, Hx.
  subst faults. revert Hr.
  unfold Callback.GET, Callback.fetch_exchange, bind, getenv, ret, upsert,
    next_fault, with_log, with_table.
  simpl.
  apply orb_false_intro with (1 := C3) in C4 as C34.
  apply orb_false_intro with (1 := C1) in C2 as C12.
  rewrite C34, C12.
  destruct (negb (unset (Callback.Query.error req))); [discriminate |].
  destruct (unset (Callback.Query.code req)); [discriminate |].
  simpl. set (x := answer _) in *.
  destruct (negb (Callback.ok x)); [discriminate |].
  destruct (Callback.athlete_id x) as [a |] eqn:A; simpl; [| discriminate].
  destruct (a =? 0)%Z; [discriminate |].
  simpl. intros [= <- <-].
  set (v := {| Upsert.athlete_id := a;
               Upsert.access_token := Callback.access_token x;
               Upsert.refresh_token := Callback.refresh_token x;
               Upsert.expires_at := Callback.expires_at x;
               Upsert.scope := Callback.scope x |}).
  destruct (latest_upsert_only_athlete v clk tbl Ho) as (r & L & Ra & Re).
  unfold getAccessTokenFromSupabase, bind, getenv, ret, select_latest,
    Date_now, next_fault, with_log.
  simpl. rewrite C12, C34. simpl. rewrite L. simpl.
  assert (B : (Row.expires_at r <=? clk / 1000 + 60)%Z = false).
  { apply Z.leb_gt. rewrite Re. simpl. lia. }
  rewrite B. simpl. rewrite Ra. split; reflexivity.
Qed.

Lemma callback_then_token_witness :
  fst (getAccessTokenFromSupabase
         (snd (Callback.GET (fun _ => sample_exchange) sample_redirect
                 (sample_world 1690000000 sample_failure))))
  = AccessToken "first-access".
Proof.
  apply (callback_then_token (fun _ => sample_exchange) sample_redirect
           (sample_world 1690000000 sample_failure) 42%Z
           (Some "read,activity:read_all")).
  - repeat split.
  - reflexivity.
  - reflexivity.
  - reflexivity.
  - reflexivity.
Defined.

(** ** The nearby-segments route *)

(** X20: the nearby route does in its own handler what the weighted
    route leaves to [getAccessTokenFromSupabase], and for coordinates that
    convert to finite numbers the two agree: the same requests are made
    and the same world is left; where the routine returns a token, the
    route goes on with that token; where the routine returns an error, the
    route answers [500] with that error, as its [error] or, for a failed
    refresh, as the [details] of [Token refresh failed]. *)
Theorem nearby_token_phase_agrees
        (latStr lngStr radiusStr : option string) (w : World) :
  Number_isFinite (Number_of_param latStr) = true ->
  Number_isFinite (Number_of_param lngStr) = true ->
  snd (Nearby.GET_prologue latStr lngStr radiusStr w)
  = snd (getAccessTokenFromSupabase w)
  /\ match fst (getAccessTokenFromSupabase w) with
     | AccessToken t =>
         exists ready : Nearby.Ready,
           fst (Nearby.GET_prologue latStr lngStr radiusStr w) = inr ready
           /\ Nearby.access_token ready = t
           /\ Nearby.lat ready = Number_of_param latStr
           /\ Nearby.lng ready = Number_of_param lngStr
     | Error message =>
         fst (Nearby.GET_prologue latStr lngStr radiusStr w)
         = inl (Failure 500 message None)
         \/ fst (Nearby.GET_prologue latStr lngStr radiusStr w)
            = inl (Failure 500 "Token refresh failed" (Some message))
     end.
Proof.
  intros Hlat Hlng. destruct w as [e tbl faults clk oauth lg].
  unfold Nearby.GET_prologue, getAccessTokenFromSupabase,
    Nearby.refreshStravaToken, bind, getenv, ret, select_latest,
    Date_now, fetch_post, upsert, next_fault, with_log, with_table.
  rewrite Hlat, Hlng.
  destruct faults as [| [|] [| [|] fs]]; run_cases;
    (split; [reflexivity |]); simpl; auto;
    eexists; repeat split; reflexivity.
Qed.

Lemma nearby_token_phase_agrees_witness :
  snd (Nearby.GET_prologue (Some "48.85") (Some "2.35") None
         (sample_world 1700000099 sample_failure))
  = snd (getAccessTokenFromSupabase
           (sample_world 1700000099 sample_failure)).
Proof.
  apply (nearby_token_phase_agrees (Some "48.85") (Some "2.35") None
           (sample_world 1700000099 sample_failure));
    vm_compute; reflexivity.
Defined.

Lemma length_append (a b : string) :
  String.length (a ++ b) = (String.length a + String.length b)%nat.
Proof. induction a as [| c a IH]; simpl; [reflexivity | now rewrite IH]. Qed.


(** [RouteC.paceFromSeconds] against the helpers of the weighted route. *)
Lemma positive_km (d : Q) :
  (0 < d)%Q -> (Fin (d / inject_Z 1000) <=? int 0)%js = false.
Proof.
  intros H. change (Fin (d / inject_Z 1000) <=? int 0)%js
    with (Qle_bool (d / inject_Z 1000) 0).
  rewrite km_not_positive.
  destruct (Qle_bool d 0) eqn:E; [| reflexivity].
  apply Qle_bool_iff in E. lra.
Qed.



(** ** The route that starts the authorization *)

Lemma all_plain_app (a b : string) :
  all_plain a = true -> all_plain b = true -> all_plain (a ++ b) = true.
Proof.
  induction a as [| c a IH]; simpl; [auto |].
  intros H Hb. apply andb_prop in H as [Hc Ha]. now rewrite Hc, IH.
Qed.

Lemma encode_char_plain (c : ascii) : all_plain (Start.encode_char c) = true.
Proof.
  destruct c as [[|] [|] [|] [|] [|] [|] [|] [|]]; vm_compute; reflexivity.
Qed.

(** X23: [encodeURIComponent] puts out unreserved characters and percent
    signs only, whatever it is given: no [&], [=], [#], [?] or [/] of a
    value reaches the address. *)
Theorem encodeURIComponent_is_plain (s : string) :
  all_plain (Start.encodeURIComponent s) = true
  /\ forall c : ascii,
       has_char c "&=#?/+ " = true ->
       has_char c (Start.encodeURIComponent s) = false.
Proof.
  assert (P : all_plain (Start.encodeURIComponent s) = true).
  { induction s as [| x s IH]; simpl; [reflexivity |].
    apply all_plain_app; [apply encode_char_plain | exact IH]. }
  split; [exact P |]. intros c Hc.
  induction (Start.encodeURIComponent s) as [| x r IH]; [reflexivity |].
  simpl in P |- *. apply andb_prop in P as [Px Pr].
  rewrite (IH Pr), orb_false_r.
  destruct (Ascii.eqb_spec x c) as [-> | _]; [| reflexivity].
  cbn [has_char] in Hc.
  repeat (apply orb_prop in Hc as [Hc | Hc];
          [apply Ascii.eqb_eq in Hc; subst c; vm_compute in Px;
           discriminate |]).
  discriminate.
Qed.

Lemma split_app_separator (c : ascii) (a b : string) :
  has_char c a = false ->
  split c (a ++ String c b) = a :: split c b.
Proof.
  induction a as [| x a IH]; simpl; [now rewrite Ascii.eqb_refl |].
  intros H. apply orb_false_elim in H as [Hx Ha].
  now rewrite Hx, (IH Ha).
Qed.

Lemma has_char_app (c : ascii) (a b : string) :
  has_char c (a ++ b) = has_char c a || has_char c b.
Proof.
  induction a as [| x a IH]; simpl; [reflexivity |].
  now rewrite IH, orb_assoc.
Qed.

Lemma encoded_without_ampersand (s : string) :
  has_char "&" (Start.encodeURIComponent s) = false.
Proof.
  assert (P : all_plain (Start.encodeURIComponent s) = true).
  { induction s as [| x s IH]; simpl; [reflexivity |].
    apply all_plain_app; [apply encode_char_plain | exact IH]. }
  induction (Start.encodeURIComponent s) as [| x r IH]; [reflexivity |].
  simpl in P |- *. apply andb_prop in P as [Px Pr].
  rewrite (IH Pr), orb_false_r.
  destruct (Ascii.eqb_spec x "&") as [-> | _]; [| reflexivity].
  vm_compute in Px. discriminate.
Qed.


